(** * core/fetcher.go: the block fetcher of the data-availability node

    A shallow embedding of [BlockFetcher] and of the functions it is built
    from.  Go values are modelled as the code has them:

    - a pointer that the code compares with [nil] is an [option];
    - a Go result [(value, err)] is a pair whose error is an [option error];
    - a run-time panic (nil dereference, call of a nil function) is the
      [Panics] outcome;
    - the remote client is an interface: a record of answers that may depend
      on the calls issued so far, and every call is appended to a trace;
    - the receive loop of a subscription and [Stop] run concurrently: they
      are threads of a small transition system over a shared state. *)

From Stdlib Require Import ZArith String List Lia Bool.
From Stdlib Require Import Init.Byte.
From stdpp Require Import base list.
Import ListNotations.

Local Open Scope Z_scope.

(** ** Errors *)

(** Error values.  [Foreign] is an error made outside this package (by the
    client, a stream or a decoding function of the consensus library); the
    other constructors are the errors that fetcher.go builds with
    [fmt.Errorf], carrying the number that [%d] prints and, for [%w], the
    wrapped error. *)
Inductive error : Type :=
| Foreign (msg : string)
| ErrNilHash
| ErrCommitNotFound (d : Z)
| ErrValidatorSetNotFound (d : Z)
| ErrGettingCommit (d : Z) (cause : error)
| ErrGettingValidatorSet (d : Z) (cause : error)
| ErrUnsubscribe (cause : error).

(** [types.ErrPartSetUnexpectedIndex] and [io.EOF]. *)
Definition ErrPartSetUnexpectedIndex : error :=
  Foreign "error part set unexpected index".
Definition EOF : string := "EOF".

(** A non-nil [*int64]: where it points and what is stored there. *)
Record int64ptr : Type := mkPtr { ptr_addr : Z; ptr_val : Z }.

(** What the verb [%d] prints for a [*int64] argument: the pointer itself
    as an integer, 0 for [nil]; never the pointed-to value. *)
Definition fmt_d (height : option int64ptr) : Z :=
  match height with
  | None => 0
  | Some p => ptr_addr p
  end.

(** ** Outcomes *)

Inductive outcome (A : Type) : Type :=
| Returns (a : A)
| Panics.
Arguments Returns {A} a.
Arguments Panics {A}.

(** ** Parts and the part set *)

Definition bytes := list byte.

(** Conversion to [uint32] wraps around. *)
Definition uint32 (n : N) : N := (n mod 2 ^ 32)%N.

Module tmproto.
(** [tmproto.Part]; [Index] is a [uint32]; the proof field is not read by
    this package. *)
Record Part : Type := mkPart { Index : N; Bytes : bytes }.
End tmproto.

Module types.

Record Part : Type := mkPart { Index : N; Bytes : bytes }.

(** The accumulator [types.PartSet] of the consensus library, which this
    package uses and does not define: [total] slots addressed by part index
    and the number of slots filled ([total] and [count] are [uint32]). *)
Record PartSet : Type := mkPartSet {
  total : N;
  parts : list (option Part);
  count : N
}.

Definition NewPartSetFromHeader (Total : N) : PartSet :=
  {| total := Total; parts := replicate (N.to_nat Total) None; count := 0%N |}.

(** An index outside the set is refused with an error; an index whose slot
    is taken is refused with [(false, nil)]; otherwise the part fills its
    slot. *)
Definition AddPartWithoutProof (ps : PartSet) (part : Part)
  : (bool * option error) * PartSet :=
  if (total ps <=? Index part)%N then
    ((false, Some ErrPartSetUnexpectedIndex), ps)
  else
    match parts ps !! N.to_nat (Index part) with
    | Some (Some _) => ((false, None), ps)
    | _ =>
        ((true, None),
         {| total := total ps;
            parts := <[N.to_nat (Index part) := Some part]> (parts ps);
            count := (count ps + 1)%N |})
    end.

Definition IsComplete (ps : PartSet) : bool := (count ps =? total ps)%N.

(** All the bytes a [PartSetReader] over the slots yields, slot by slot. *)
Fixpoint readSlots (slots : list (option Part)) : outcome bytes :=
  match slots with
  | [] => Returns []
  | None :: _ => Panics
  | Some p :: rest =>
      match readSlots rest with
      | Returns bz => Returns (Bytes p ++ bz)
      | Panics => Panics
      end
  end.

(** [io.ReadAll(ps.GetReader())]: [GetReader] panics on an incomplete
    set; on a complete one it returns [NewPartSetReader(ps.parts)], which
    opens [parts[0].Bytes] and so panics when the set has no slot at all (a
    set of [Total] 0 is complete from the start).  Reading then goes from
    slot to slot and never fails. *)
Definition ReadAll_GetReader (ps : PartSet) : outcome (bytes * option error) :=
  if IsComplete ps then
    match parts ps with
    | [] => Panics
    | _ :: _ =>
        match readSlots (parts ps) with
        | Returns bz => Returns (bz, None)
        | Panics => Panics
        end
    end
  else Panics.

End types.

(** The decoding functions of the consensus library, which this package
    calls and does not define.  They follow the Go convention: either an
    error or a non-nil value. *)
Class Tendermint : Type := {
  pbCommit : Type;
  pbValidatorSet : Type;
  pbBlockMeta : Type;
  pbBlock : Type;
  tmCommit : Type;
  tmValidatorSet : Type;
  tmBlockMeta : Type;
  tmBlock : Type;
  tmHeader : Type;
  tmData : Type;
  Commit_Height : tmCommit -> Z;
  (** the address of the field [Height] of a commit object *)
  Commit_Height_addr : tmCommit -> Z;
  Block_Header : tmBlock -> tmHeader;
  Block_Data : tmBlock -> tmData;
  CommitFromProto : option pbCommit -> string + tmCommit;
  ValidatorSetFromProto : option pbValidatorSet -> string + tmValidatorSet;
  BlockMetaFromProto : option pbBlockMeta -> string + tmBlockMeta;
  Unmarshal : bytes -> string + pbBlock;
  BlockFromProto : pbBlock -> string + tmBlock
}.

(** ** partsToBlock *)

(** The [for _, part := range parts] loop of [partsToBlock]: [inl r] when
    the loop leaves the function with [return nil, r], [inr partSet] when it
    runs to its end. *)
Fixpoint addParts (partSet : types.PartSet) (parts : list (option tmproto.Part))
  : outcome (option error + types.PartSet) :=
  match parts with
  | [] => Returns (inr partSet)
  | None :: _ => Panics
  | Some part :: rest =>
      let '((ok, err), partSet') :=
        types.AddPartWithoutProof partSet
          (types.mkPart (tmproto.Index part) (tmproto.Bytes part)) in
      match err with
      | Some _ => Returns (inl err)
      | None =>
          if negb ok then Returns (inl err)
          else addParts partSet' rest
      end
  end.

(** [partsToBlock] up to [bz, err := io.ReadAll(partSet.GetReader())]:
    [inl r] for [return nil, r], [inr bz] for the bytes read. *)
Definition partsToBytes (parts : list (option tmproto.Part))
  : outcome (option error + bytes) :=
  let partSet := types.NewPartSetFromHeader (uint32 (N.of_nat (length parts))) in
  match addParts partSet parts with
  | Panics => Panics
  | Returns (inl r) => Returns (inl r)
  | Returns (inr partSet) =>
      match types.ReadAll_GetReader partSet with
      | Panics => Panics
      | Returns (_, Some e) => Returns (inl (Some e))
      | Returns (bz, None) => Returns (inr bz)
      end
  end.

Section PartsToBlock.
Context {tm : Tendermint}.

Definition partsToBlock (parts : list (option tmproto.Part))
  : outcome (option tmBlock * option error) :=
  match partsToBytes parts with
  | Panics => Panics
  | Returns (inl r) => Returns (None, r)
  | Returns (inr bz) =>
      match Unmarshal bz with
      | inl e => Returns (None, Some (Foreign e))
      | inr pbb =>
          match BlockFromProto pbb with
          | inl e => Returns (None, Some (Foreign e))
          | inr block => Returns (Some block, None)
          end
      end
  end.

End PartsToBlock.


(** ** The remote client *)

(** A server stream: the messages still to come, then the error with which
    every later [Recv] fails ([io.EOF] at a regular end). *)
Record Stream (A : Type) : Type := mkStream {
  pending : list A;
  closing : string
}.
Arguments mkStream {A} pending closing.
Arguments pending {A} s.
Arguments closing {A} s.

Definition Recv {A : Type} (s : Stream A) : (string + A) * Stream A :=
  match pending s with
  | [] => (inl (closing s), s)
  | resp :: rest => (inr resp, mkStream rest (closing s))
  end.

(** The requests the fetcher sends through the client. *)
Inductive Call : Type :=
| CallStatus
| CallCommit (Height : Z)
| CallValidatorSet (Height : Z)
| CallBlockByHeight (Height : Z)
| CallBlockByHash (Hash : bytes)
| CallSubscribeNewHeights.

Definition Trace := list Call.

Module coregrpc.
Section Messages.
Context {tm : Tendermint}.

(** [status.SyncInfo.LatestBlockHeight] and [resp.SyncInfo.CatchingUp]. *)
Record StatusResponse : Type := mkStatusResponse {
  LatestBlockHeight : Z;
  CatchingUp : bool
}.

Record CommitResponse : Type := mkCommitResponse {
  CommitResponse_Commit : option pbCommit
}.

Record ValidatorSetResponse : Type := mkValidatorSetResponse {
  ValidatorSetResponse_ValidatorSet : option pbValidatorSet
}.

Record BlockByHeightResponse : Type := mkBlockByHeightResponse {
  BlockPart : option tmproto.Part;
  Commit : option pbCommit;
  ValidatorSet : option pbValidatorSet;
  BlockMeta : option pbBlockMeta;
  IsLast : bool
}.

Record BlockByHashResponse : Type := mkBlockByHashResponse {
  ByHash_BlockPart : option tmproto.Part;
  ByHash_IsLast : bool
}.

(** [resp.Height] of a new-height notification, and the address of that
    field. *)
Record NewHeightResponse : Type := mkNewHeightResponse {
  Height : Z;
  Height_addr : Z
}.

End Messages.
End coregrpc.

(** The [Client] interface.  Each answer may depend on the requests issued
    before it, so that the chain can grow between two calls.  A unary call
    answers with a transport error or a response; the code tests the
    responses of [Commit] and [ValidatorSet] against [nil], so these two
    are pointers that may be [nil].  The response of [Status] is read
    without a test ([status.SyncInfo.LatestBlockHeight]): it is taken to be
    there and to carry its [SyncInfo], and what the code does on a [nil]
    one (it panics at that line) is outside this model. *)
Record Client {tm : Tendermint} : Type := mkClient {
  client_Status : Trace -> string + coregrpc.StatusResponse;
  client_Commit : Trace -> Z -> string + option coregrpc.CommitResponse;
  client_ValidatorSet :
    Trace -> Z -> string + option coregrpc.ValidatorSetResponse;
  client_BlockByHeight :
    Trace -> Z -> string + Stream coregrpc.BlockByHeightResponse;
  client_BlockByHash :
    Trace -> bytes -> string + Stream coregrpc.BlockByHashResponse;
  client_SubscribeNewHeights :
    Trace -> string + Stream coregrpc.NewHeightResponse
}.

(** ** Computations that call the client *)

Definition M (A : Type) : Type := Trace -> outcome A * Trace.

Definition ret {A : Type} (a : A) : M A := fun tr => (Returns a, tr).

Definition panic {A : Type} : M A := fun tr => (Panics, tr).

Definition bind {A B : Type} (m : M A) (k : A -> M B) : M B :=
  fun tr =>
    match m tr with
    | (Returns a, tr') => k a tr'
    | (Panics, tr') => (Panics, tr')
    end.

(** One request: it is answered from the trace so far and then recorded. *)
Definition call {A : Type} (c : Call) (answer : Trace -> A) : M A :=
  fun tr => (Returns (answer tr), tr ++ [c]).

Definition lift {A : Type} (o : outcome A) : M A := fun tr => (o, tr).

#[global] Instance M_ret : MRet M := @ret.
#[global] Instance M_bind : MBind M := fun A B k m => bind m k.

(** ** The fetcher *)

Section Fetcher.
Context {tm : Tendermint}.

(** [doneCh] and [cancel] are [nil] until a subscription sets them. *)
Record BlockFetcher : Type := mkBlockFetcher {
  client : Client;
  doneCh : option unit;
  cancel : option unit
}.

Definition NewBlockFetcher (client : Client) : BlockFetcher :=
  {| client := client; doneCh := None; cancel := None |}.

Definition resolveHeight (f : BlockFetcher) (height : option int64ptr)
  : M (Z * option error) :=
  match height with
  | Some p => mret (ptr_val p, None)
  | None =>
      status ← call CallStatus (client_Status (client f));
      match status with
      | inl err => mret (0, Some (Foreign err))
      | inr status => mret (coregrpc.LatestBlockHeight status, None)
      end
  end.

Definition Commit (f : BlockFetcher) (height : option int64ptr)
  : M (option tmCommit * option error) :=
  '(blockHeight, err) ← resolveHeight f height;
  match err with
  | Some _ => mret (None, err)
  | None =>
      res ← call (CallCommit blockHeight)
                 (fun tr => client_Commit (client f) tr blockHeight);
      match res with
      | inl err => mret (None, Some (Foreign err))
      | inr res =>
          match res with
          | Some {| coregrpc.CommitResponse_Commit := None |} =>
              mret (None, Some (ErrCommitNotFound (fmt_d height)))
          | None => panic
          | Some res =>
              match CommitFromProto (coregrpc.CommitResponse_Commit res) with
              | inl err => mret (None, Some (Foreign err))
              | inr commit => mret (Some commit, None)
              end
          end
      end
  end.

Definition ValidatorSet (f : BlockFetcher) (height : option int64ptr)
  : M (option tmValidatorSet * option error) :=
  '(blockHeight, err) ← resolveHeight f height;
  match err with
  | Some _ => mret (None, err)
  | None =>
      res ← call (CallValidatorSet blockHeight)
                 (fun tr => client_ValidatorSet (client f) tr blockHeight);
      match res with
      | inl err => mret (None, Some (Foreign err))
      | inr res =>
          match res with
          | Some {| coregrpc.ValidatorSetResponse_ValidatorSet := None |} =>
              mret (None, Some (ErrValidatorSetNotFound (fmt_d height)))
          | None => panic
          | Some res =>
              match ValidatorSetFromProto
                      (coregrpc.ValidatorSetResponse_ValidatorSet res) with
              | inl err => mret (None, Some (Foreign err))
              | inr validatorSet => mret (Some validatorSet, None)
              end
          end
      end
  end.

(** [&commit.Height] *)
Definition ref_Commit_Height (commit : tmCommit) : int64ptr :=
  {| ptr_addr := Commit_Height_addr commit; ptr_val := Commit_Height commit |}.

Definition GetBlockInfo (f : BlockFetcher) (height : option int64ptr)
  : M (option tmCommit * option tmValidatorSet * option error) :=
  '(commit, err) ← Commit f height;
  match err with
  | Some err => mret (None, None, Some (ErrGettingCommit (fmt_d height) err))
  | None =>
      match commit with
      | None => panic
      | Some commit =>
          '(valSet, err) ← ValidatorSet f (Some (ref_Commit_Height commit));
          match err with
          | Some err =>
              mret (None, None,
                    Some (ErrGettingValidatorSet (fmt_d height) err))
          | None => mret (Some commit, valSet, None)
          end
      end
  end.

Definition IsSyncing (f : BlockFetcher) : M (bool * option error) :=
  resp ← call CallStatus (client_Status (client f));
  match resp with
  | inl err => mret (false, Some (Foreign err))
  | inr resp => mret (coregrpc.CatchingUp resp, None)
  end.

(** *** Receiving a block part by part *)

(** The loop [for !isLast] of [receiveBlockByHeight], by recursion on the
    messages the stream still holds: [inl err] when a [Recv] fails, [inr]
    the parts collected when a part flagged last has been appended. *)
Fixpoint receiveRestByHeight (pending : list coregrpc.BlockByHeightResponse)
    (closing : string) (parts : list (option tmproto.Part)) (isLast : bool)
  : string + list (option tmproto.Part) :=
  if isLast then inr parts
  else
    match pending with
    | [] => inl closing
    | resp :: pending =>
        receiveRestByHeight pending closing
          (parts ++ [coregrpc.BlockPart resp]) (coregrpc.IsLast resp)
    end.

Definition BlockByHeightResult : Type :=
  option tmBlock * option tmBlockMeta * option tmCommit
  * option tmValidatorSet * option error.

Definition failByHeight (err : error) : outcome BlockByHeightResult :=
  Returns (None, None, None, None, Some err).

Definition receiveBlockByHeight
    (streamer : Stream coregrpc.BlockByHeightResponse)
  : outcome BlockByHeightResult :=
  let parts := [] in
  match Recv streamer with
  | (inl err, _) => failByHeight (Foreign err)
  | (inr resp, streamer) =>
      match BlockMetaFromProto (coregrpc.BlockMeta resp) with
      | inl err => failByHeight (Foreign err)
      | inr blockMeta =>
      match CommitFromProto (coregrpc.Commit resp) with
      | inl err => failByHeight (Foreign err)
      | inr commit =>
      match ValidatorSetFromProto (coregrpc.ValidatorSet resp) with
      | inl err => failByHeight (Foreign err)
      | inr validatorSet =>
          let parts := parts ++ [coregrpc.BlockPart resp] in
          match receiveRestByHeight (pending streamer) (closing streamer)
                  parts (coregrpc.IsLast resp) with
          | inl err => failByHeight (Foreign err)
          | inr parts =>
              match partsToBlock parts with
              | Panics => Panics
              | Returns (_, Some err) => failByHeight err
              | Returns (block, None) =>
                  Returns (block, Some blockMeta, Some commit,
                           Some validatorSet, None)
              end
          end
      end end end
  end.

Fixpoint receiveRestByHash (pending : list coregrpc.BlockByHashResponse)
    (closing : string) (parts : list (option tmproto.Part)) (isLast : bool)
  : string + list (option tmproto.Part) :=
  if isLast then inr parts
  else
    match pending with
    | [] => inl closing
    | resp :: pending =>
        receiveRestByHash pending closing
          (parts ++ [coregrpc.ByHash_BlockPart resp])
          (coregrpc.ByHash_IsLast resp)
    end.

Definition receiveBlockByHash (streamer : Stream coregrpc.BlockByHashResponse)
  : outcome (option tmBlock * option error) :=
  let parts := [] in
  let isLast := false in
  match receiveRestByHash (pending streamer) (closing streamer) parts isLast with
  | inl err => Returns (None, Some (Foreign err))
  | inr parts => partsToBlock parts
  end.

(** *** Blocks *)

Definition GetBlock (f : BlockFetcher) (height : option int64ptr)
  : M (option tmBlock * option error) :=
  '(blockHeight, err) ← resolveHeight f height;
  match err with
  | Some _ => mret (None, err)
  | None =>
      stream ← call (CallBlockByHeight blockHeight)
                    (fun tr => client_BlockByHeight (client f) tr blockHeight);
      match stream with
      | inl err => mret (None, Some (Foreign err))
      | inr stream =>
          '(block, _, _, _, err) ← lift (receiveBlockByHeight stream);
          match err with
          | Some _ => mret (None, err)
          | None => mret (block, None)
          end
      end
  end.

(** [hash] is a byte slice: [None] is the [nil] slice, [Some []] a slice of
    length 0 that is not [nil]. *)
Definition GetBlockByHash (f : BlockFetcher) (hash : option bytes)
  : M (option tmBlock * option error) :=
  match hash with
  | None => mret (None, Some ErrNilHash)
  | Some hash =>
      stream ← call (CallBlockByHash hash)
                    (fun tr => client_BlockByHash (client f) tr hash);
      match stream with
      | inl err => mret (None, Some (Foreign err))
      | inr stream =>
          '(block, err) ← lift (receiveBlockByHash stream);
          match err with
          | Some _ => mret (None, err)
          | None => mret (block, None)
          end
      end
  end.

(** [coretypes.ResultSignedBlock] *)
Record ResultSignedBlock : Type := mkResultSignedBlock {
  Header : tmHeader;
  Commit_ : tmCommit;
  Data : tmData;
  ValidatorSet_ : tmValidatorSet
}.

Definition GetSignedBlock (f : BlockFetcher) (height : option int64ptr)
  : M (option ResultSignedBlock * option error) :=
  '(blockHeight, err) ← resolveHeight f height;
  match err with
  | Some _ => mret (None, err)
  | None =>
      stream ← call (CallBlockByHeight blockHeight)
                    (fun tr => client_BlockByHeight (client f) tr blockHeight);
      match stream with
      | inl err => mret (None, Some (Foreign err))
      | inr stream =>
          '(block, _, commit, validatorSet, err) ←
            lift (receiveBlockByHeight stream);
          match err with
          | Some _ => mret (None, err)
          | None =>
              match block, commit, validatorSet with
              | Some block, Some commit, Some validatorSet =>
                  mret (Some {| Header := Block_Header block;
                                Commit_ := commit;
                                Data := Block_Data block;
                                ValidatorSet_ := validatorSet |}, None)
              | _, _, _ => panic
              end
          end
      end
  end.

(** ** The subscription *)

(** [types.EventDataSignedBlock] *)
Record EventDataSignedBlock : Type := mkEventDataSignedBlock {
  Event_Header : tmHeader;
  Event_Commit : tmCommit;
  Event_ValidatorSet : tmValidatorSet;
  Event_Data : tmData
}.

(** [&resp.Height] *)
Definition ref_Height (resp : coregrpc.NewHeightResponse) : int64ptr :=
  {| ptr_addr := coregrpc.Height_addr resp; ptr_val := coregrpc.Height resp |}.

(** Where the goroutine started by [SubscribeNewBlockEvent] stands. *)
Inductive LoopPc : Type :=
| NotStarted
| AtSelect
| AtRecv
| AtFetch (resp : coregrpc.NewHeightResponse)
| AtSend (ev : EventDataSignedBlock)
| ClosingOut
| ClosingDone
| Exited
| Panicked.

(** Where a call of [Stop] stands. *)
Inductive StopPc : Type :=
| StopIdle
| StopWaiting
| StopReturned (err : option error)
| StopPanicked.

(** One fetcher with the one subscription its fields can hold, the
    goroutine of that subscription and a caller of [Stop].

    - [ctxDone]: the context made by [context.WithCancel] is done;
    - [outClosed], [doneClosed]: how many times [signedBlockCh] and
      [f.doneCh] have been closed;
    - [delivered]: the events the consumer has taken from [signedBlockCh];
    - [subscription]: the stream of new heights, as far as it is unread;
    - [stopCtx]: [ctx.Err()] of the context given to [Stop];
    - [crashed]: a panic has ended the process. *)
Record Sys : Type := mkSys {
  fetcher : BlockFetcher;
  ctxDone : bool;
  outClosed : nat;
  doneClosed : nat;
  delivered : list EventDataSignedBlock;
  subscription : Stream coregrpc.NewHeightResponse;
  loop : LoopPc;
  stop : StopPc;
  stopCtx : option error;
  trace : Trace;
  crashed : bool
}.

Definition init (client : Client) : Sys :=
  {| fetcher := NewBlockFetcher client;
     ctxDone := false; outClosed := 0; doneClosed := 0; delivered := [];
     subscription := mkStream [] EOF;
     loop := NotStarted; stop := StopIdle; stopCtx := None;
     trace := []; crashed := false |}.

Definition set_loop (pc : LoopPc) (s : Sys) : Sys :=
  mkSys (fetcher s) (ctxDone s) (outClosed s) (doneClosed s) (delivered s)
        (subscription s) pc (stop s) (stopCtx s) (trace s) (crashed s).

Definition set_trace (tr : Trace) (s : Sys) : Sys :=
  mkSys (fetcher s) (ctxDone s) (outClosed s) (doneClosed s) (delivered s)
        (subscription s) (loop s) (stop s) (stopCtx s) tr (crashed s).

Definition set_subscription (sub : Stream coregrpc.NewHeightResponse) (s : Sys)
  : Sys :=
  mkSys (fetcher s) (ctxDone s) (outClosed s) (doneClosed s) (delivered s)
        sub (loop s) (stop s) (stopCtx s) (trace s) (crashed s).

Definition set_stop (pc : StopPc) (ctxErr : option error) (s : Sys) : Sys :=
  mkSys (fetcher s) (ctxDone s) (outClosed s) (doneClosed s) (delivered s)
        (subscription s) (loop s) pc ctxErr (trace s) (crashed s).

(** [cancel()] *)
Definition cancel_ctx (s : Sys) : Sys :=
  mkSys (fetcher s) true (outClosed s) (doneClosed s) (delivered s)
        (subscription s) (loop s) (stop s) (stopCtx s) (trace s) (crashed s).

(** [close(signedBlockCh)] and [close(f.doneCh)] *)
Definition close_out (s : Sys) : Sys :=
  mkSys (fetcher s) (ctxDone s) (S (outClosed s)) (doneClosed s) (delivered s)
        (subscription s) (loop s) (stop s) (stopCtx s) (trace s) (crashed s).

Definition close_done (s : Sys) : Sys :=
  mkSys (fetcher s) (ctxDone s) (outClosed s) (S (doneClosed s)) (delivered s)
        (subscription s) (loop s) (stop s) (stopCtx s) (trace s) (crashed s).

Definition deliver (ev : EventDataSignedBlock) (s : Sys) : Sys :=
  mkSys (fetcher s) (ctxDone s) (outClosed s) (doneClosed s)
        (delivered s ++ [ev])
        (subscription s) (loop s) (stop s) (stopCtx s) (trace s) (crashed s).

Definition crash (s : Sys) : Sys :=
  mkSys (fetcher s) (ctxDone s) (outClosed s) (doneClosed s) (delivered s)
        (subscription s) (loop s) (stop s) (stopCtx s) (trace s) true.

(** A panic in the goroutine: its deferred calls run, then the process
    ends. *)
Definition loop_panic (s : Sys) : Sys :=
  crash (set_loop Panicked (close_done (close_out s))).

(** [SubscribeNewBlockEvent], up to the [go] statement; the goroutine then
    runs by [receiveLoop].  The fields are written before the stream is
    requested. *)
Definition SubscribeNewBlockEvent (s : Sys) : Sys :=
  let f := {| client := client (fetcher s);
              doneCh := Some tt; cancel := Some tt |} in
  let s := mkSys f false (outClosed s) (doneClosed s) (delivered s)
             (subscription s) (loop s) (stop s) (stopCtx s) (trace s)
             (crashed s) in
  match call CallSubscribeNewHeights
             (client_SubscribeNewHeights (client f)) (trace s) with
  | (Returns (inl err), tr) => set_trace tr s
  | (Returns (inr subscription), tr) =>
      set_loop AtSelect (set_subscription subscription (set_trace tr s))
  | (Panics, tr) => crash (set_trace tr s)
  end.

(** One step of the goroutine.  At the inner [select], [takeSend] tells
    which ready case is taken: the send (a consumer receives) or
    [<-ctx.Done()]. *)
Definition receiveLoop (takeSend : bool) (s : Sys) : Sys :=
  match loop s with
  | AtSelect => set_loop (if ctxDone s then ClosingOut else AtRecv) s
  | AtRecv =>
      match Recv (subscription s) with
      | (inl err, sub) => set_loop ClosingOut (set_subscription sub s)
      | (inr resp, sub) => set_loop (AtFetch resp) (set_subscription sub s)
      end
  | AtFetch resp =>
      match GetSignedBlock (fetcher s) (Some (ref_Height resp)) (trace s) with
      | (Returns (_, Some err), tr) => set_loop ClosingOut (set_trace tr s)
      | (Returns (Some signedBlock, None), tr) =>
          set_loop
            (AtSend {| Event_Header := Header signedBlock;
                       Event_Commit := Commit_ signedBlock;
                       Event_ValidatorSet := ValidatorSet_ signedBlock;
                       Event_Data := Data signedBlock |})
            (set_trace tr s)
      | (Returns (None, None), tr) => loop_panic (set_trace tr s)
      | (Panics, tr) => loop_panic (set_trace tr s)
      end
  | AtSend ev =>
      if takeSend then set_loop AtSelect (deliver ev s)
      else if ctxDone s then set_loop ClosingOut s
      else s
  | ClosingOut => set_loop ClosingDone (close_out s)
  | ClosingDone => set_loop Exited (close_done s)
  | NotStarted | Exited | Panicked => s
  end.

(** [Stop], first half: [f.cancel()]. *)
Definition Stop_cancel (ctxErr : option error) (s : Sys) : Sys :=
  match cancel (fetcher s) with
  | None => crash (set_stop StopPanicked ctxErr s)
  | Some _ => set_stop StopWaiting ctxErr (cancel_ctx s)
  end.

(** [Stop], second half: the [select].  The case [<-f.doneCh] is ready once
    the channel is closed (nothing is ever sent on it, and a [nil] channel
    is never ready); the case [<-ctx.Done()] is ready once the context is
    done. *)
Definition Stop_select (takeDone : bool) (s : Sys) : Sys :=
  if takeDone then
    match doneCh (fetcher s) with
    | Some _ =>
        if (0 <? doneClosed s)%nat then set_stop (StopReturned None) (stopCtx s) s
        else s
    | None => s
    end
  else
    match stopCtx s with
    | Some err =>
        set_stop (StopReturned (Some (ErrUnsubscribe err))) (stopCtx s) s
    | None => s
    end.

(** What can happen next. *)
Inductive Input : Type :=
| CallSubscribe
| LoopStep (takeSend : bool)
| CallStop (ctxErr : option error)
| StopStep (takeDone : bool)
| StopCtxDone (err : error)
| ParentDone.

(** An input that is not enabled leaves the state as it is.  The model
    follows one subscription: a second call of [SubscribeNewBlockEvent] on
    the same fetcher is outside it. *)
Definition step (s : Sys) (i : Input) : Sys :=
  if crashed s then s
  else
    match i with
    | CallSubscribe =>
        match cancel (fetcher s) with
        | None => SubscribeNewBlockEvent s
        | Some _ => s
        end
    | LoopStep takeSend => receiveLoop takeSend s
    | CallStop ctxErr =>
        match stop s with
        | StopWaiting => s
        | _ => Stop_cancel ctxErr s
        end
    | StopStep takeDone =>
        match stop s with
        | StopWaiting => Stop_select takeDone s
        | _ => s
        end
    | StopCtxDone err =>
        match stop s, stopCtx s with
        | StopWaiting, None => set_stop StopWaiting (Some err) s
        | _, _ => s
        end
    | ParentDone =>
        match cancel (fetcher s) with
        | Some _ => cancel_ctx s
        | None => s
        end
    end.

Definition run (s : Sys) (schedule : list Input) : Sys :=
  fold_left step schedule s.

End Fetcher.

(** ** das/worker.go: the sampling worker *)

Module das.

(** Errors as the worker sees them.  [Foreign] is an error of the header
    getter or of the sampling function, together with what
    [errors.Is(err, context.Canceled)] says of it; [AtHeight] is
    [fmt.Errorf("height: %v, err: %w", curr, err)]. *)
Inductive error : Type :=
| Foreign (msg : string) (canceled : bool)
| AtHeight (curr : N) (cause : error).

(** [errors.Is(err, context.Canceled)]; [%w] keeps the cause in the
    chain. *)
Fixpoint Is_Canceled (err : error) : bool :=
  match err with
  | Foreign _ canceled => canceled
  | AtHeight _ cause => Is_Canceled cause
  end.

Definition uint64 (n : N) : N := (n mod 2 ^ 64)%N.

Record job : Type := mkJob { id : Z; From : N; To : N }.

(** [Err] is the error built with [multierr.Append]: the list of the errors
    appended so far, [nil] when there is none. *)
Record workerState : Type := mkState {
  state_job : job;
  Curr : N;
  Err : list error;
  failed : list N
}.

Record result : Type := mkResult {
  result_job : job;
  result_failed : list N;
  result_err : list error
}.

Definition newWorker (j : job) : workerState :=
  {| state_job := j; Curr := From j; Err := []; failed := [] |}.

(** The lock only keeps [setResult] and [getState] apart. *)
Definition setResult (w : workerState) (curr : N) (err : option error)
  : workerState :=
  match err with
  | Some e =>
      {| state_job := state_job w; Curr := curr;
         Err := Err w ++ [AtHeight curr e];
         failed := failed w ++ [curr] |}
  | None =>
      {| state_job := state_job w; Curr := curr; Err := Err w;
         failed := failed w |}
  end.

Definition getState (w : workerState) : workerState := w.

(** What the worker asks of its collaborators. *)
Inductive Call : Type :=
| CallGetByHeight (height : N)
| CallSample (height : N).

Section Worker.
Variable Header : Type.
Variable getter : N -> error + Header.
Variable sample : Header -> option error.

(** The body of the loop up to [errors.Is]: the header is fetched, and
    sampled only when it was fetched. *)
Definition sampleAt (curr : N) : option error * list Call :=
  match getter curr with
  | inl err => (Some err, [CallGetByHeight curr])
  | inr h => (sample h, [CallGetByHeight curr; CallSample curr])
  end.

(** [for curr := w.state.From; curr <= w.state.To; curr++], from [curr]
    on, with the calls made; [None] when [fuel] iterations do not end
    it. *)
Fixpoint loop (fuel : nat) (curr : N) (w : workerState) (log : list Call)
  : option (workerState * list Call) :=
  if (curr <=? To (state_job w))%N then
    match fuel with
    | O => None
    | S fuel =>
        let '(err, calls) := sampleAt curr in
        if match err with Some e => Is_Canceled e | None => false end
        then Some (w, log ++ calls)
        else loop fuel (uint64 (curr + 1)) (setResult w curr err)
               (log ++ calls)
    end
  else Some (w, log).

(** [run]: the loop and then the [select] that hands over the result or
    sees the context done ([sent] tells which). *)
Definition run (fuel : nat) (w : workerState) (sent : bool)
  : option (workerState * list Call * option result) :=
  match loop fuel (From (state_job w)) w [] with
  | None => None
  | Some (w, log) =>
      Some (w, log,
            if sent then
              Some {| result_job := state_job w; result_failed := failed w;
                      result_err := Err w |}
            else None)
  end.

(** The error of fetching and sampling at a height, and the calls made
    there. *)
Definition errAt (h : N) : option error := fst (sampleAt h).
Definition callsAt (h : N) : list Call := snd (sampleAt h).

Definition canceledAt (h : N) : bool :=
  match errAt h with
  | Some e => Is_Canceled e
  | None => false
  end.

(** Of the heights [hs]: those at which fetching or sampling fails, and the
    errors recorded for them. *)
Definition failedIn (hs : list N) : list N :=
  omap (fun h => match errAt h with Some _ => Some h | None => None end) hs.
Definition errorsIn (hs : list N) : list error :=
  omap (fun h => AtHeight h <$> errAt h) hs.

End Worker.

(** The heights [a], [a+1], ... : [n] of them. *)
Fixpoint range (a : N) (n : nat) : list N :=
  match n with
  | O => []
  | S n => a :: range (a + 1) n
  end.

End das.

(** ** Sample instances *)

(** A consensus library whose messages are as plain as can be: a commit or
    a validator set is its height, a block is its bytes. *)
Definition plainTendermint : Tendermint :=
  {| pbCommit := Z; pbValidatorSet := Z; pbBlockMeta := Z; pbBlock := bytes;
     tmCommit := Z; tmValidatorSet := Z; tmBlockMeta := Z; tmBlock := bytes;
     tmHeader := bytes; tmData := bytes;
     Commit_Height := fun c => c;
     Commit_Height_addr := fun _ => 824633720832;
     Block_Header := fun b => take 1 b;
     Block_Data := fun b => drop 1 b;
     CommitFromProto := fun c =>
       match c with Some c => inr c | None => inl "nil Commit"%string end;
     ValidatorSetFromProto := fun v =>
       match v with Some v => inr v | None => inl "nil validator set"%string end;
     BlockMetaFromProto := fun m =>
       match m with Some m => inr m | None => inl "blockmeta is empty"%string end;
     Unmarshal := fun bz => inr bz;
     BlockFromProto := fun pbb => inr pbb |}.

Section Samples.
#[local] Existing Instance plainTendermint.

Definition partX : tmproto.Part := tmproto.mkPart 0 [x78].
Definition partY : tmproto.Part := tmproto.mkPart 1 [x79].

(** A node whose chain grows by one block with every request it serves,
    starting at height 100; every block is sent in two parts. *)
Definition growingChain : @Client plainTendermint :=
  {| client_Status := fun tr =>
       inr (coregrpc.mkStatusResponse (Z.of_nat (length tr) + 100) false);
     client_Commit := fun _ h => inr (Some (coregrpc.mkCommitResponse (Some h)));
     client_ValidatorSet := fun _ h =>
       inr (Some (coregrpc.mkValidatorSetResponse (Some h)));
     client_BlockByHeight := fun _ h =>
       inr (mkStream
              [coregrpc.mkBlockByHeightResponse (Some partX) (Some h) (Some h)
                 (Some h) false;
               coregrpc.mkBlockByHeightResponse (Some partY) None None None
                 true]
              EOF);
     client_BlockByHash := fun _ _ =>
       inr (mkStream
              [coregrpc.mkBlockByHashResponse (Some partX) false;
               coregrpc.mkBlockByHashResponse (Some partY) true]
              EOF);
     client_SubscribeNewHeights := fun tr =>
       inr (mkStream
              [coregrpc.mkNewHeightResponse 101 824633721000;
               coregrpc.mkNewHeightResponse 102 824633721008]
              EOF) |}.

(** A node at height 100 that answers every commit and validator-set query
    with an empty response, and whose streams break after the first part. *)
Definition emptyNode : @Client plainTendermint :=
  {| client_Status := fun _ => inr (coregrpc.mkStatusResponse 100 false);
     client_Commit := fun _ _ => inr (Some (coregrpc.mkCommitResponse None));
     client_ValidatorSet := fun _ _ =>
       inr (Some (coregrpc.mkValidatorSetResponse None));
     client_BlockByHeight := fun _ h =>
       inr (mkStream
              [coregrpc.mkBlockByHeightResponse (Some partX) (Some h) (Some h)
                 (Some h) false]
              "transport is closing");
     client_BlockByHash := fun _ _ =>
       inr (mkStream [coregrpc.mkBlockByHashResponse (Some partX) false]
              "transport is closing");
     client_SubscribeNewHeights := fun _ => inl "unavailable"%string |}.

(** A node at height 100 that answers every commit and validator-set query
    with neither a response nor an error. *)
Definition silentNode : @Client plainTendermint :=
  {| client_Status := fun _ => inr (coregrpc.mkStatusResponse 100 false);
     client_Commit := fun _ _ => inr None;
     client_ValidatorSet := fun _ _ => inr None;
     client_BlockByHeight := fun _ _ => inl "unavailable"%string;
     client_BlockByHash := fun _ _ => inl "unavailable"%string;
     client_SubscribeNewHeights := fun _ => inl "unavailable"%string |}.

(** A chain for the sampling worker: the header of height 7 cannot be
    fetched, sampling fails at height 6, and the context is cancelled when
    height 9 is asked for. *)
Definition sampleGetter (h : N) : das.error + N :=
  if (h =? 7)%N then inl (das.Foreign "header not found" false)
  else if (h =? 9)%N then inl (das.Foreign "context canceled" true)
  else inr h.
Definition sampleSample (h : N) : option das.error :=
  if (h =? 6)%N then Some (das.Foreign "share unavailable" false) else None.

(** A subscription to [growingChain] that delivers one block and is then
    stopped: the goroutine leaves at the inner [select] and closes both
    channels, and [Stop] returns [nil]. *)
Definition stoppedRun : list Input :=
  [CallSubscribe; LoopStep true; LoopStep true; LoopStep true; LoopStep true;
   LoopStep true; LoopStep true; LoopStep true; CallStop None;
   LoopStep false; LoopStep true; LoopStep true; StopStep true].

(** A subscription that is stopped at once: the goroutine sees the
    context done at its first [select]. *)
Definition stoppedAtOnce : list Input :=
  [CallSubscribe; CallStop None; LoopStep true; LoopStep true; LoopStep true;
   StopStep true].

End Samples.

(** ** What the proofs are stated with *)

(** The parts a part set holds, in slot order. *)
Fixpoint filled (slots : list (option types.Part)) : list types.Part :=
  match slots with
  | [] => []
  | Some p :: slots => p :: filled slots
  | None :: slots => filled slots
  end.

(** The conversion [&types.Part{Index: part.Index, Bytes: part.Bytes}] of
    [partsToBlock], and its inverse. *)
Definition toPart (part : tmproto.Part) : types.Part :=
  types.mkPart (tmproto.Index part) (tmproto.Bytes part).
Definition ofPart (part : types.Part) : tmproto.Part :=
  tmproto.mkPart (types.Index part) (types.Bytes part).

(** Payloads numbered in sequence from [first]: what a stream delivers when
    every part carries its position as its index. *)
Fixpoint inSequence (first : N) (payloads : list bytes) : list tmproto.Part :=
  match payloads with
  | [] => []
  | b :: payloads => tmproto.mkPart first b :: inSequence (first + 1) payloads
  end.

(** What holds of a part set into which the parts [added] have gone. *)
Record part_inv (ps : types.PartSet) (added : list tmproto.Part) : Prop := {
  inv_slots : length (types.parts ps) = N.to_nat (types.total ps);
  inv_count : types.count ps = N.of_nat (length added);
  inv_perm : filled (types.parts ps) ≡ₚ toPart <$> added;
  inv_index : forall i p,
    types.parts ps !! i = Some (Some p) -> types.Index p = N.of_nat i
}.

Section SubscriptionInvariant.
Context {tm : Tendermint}.

(** How often the goroutine has closed [signedBlockCh] and [f.doneCh] when
    it stands at [pc]. *)
Definition closes_of (pc : LoopPc) : nat * nat :=
  match pc with
  | ClosingDone => (1, 0)%nat
  | Exited | Panicked => (1, 1)%nat
  | _ => (0, 0)%nat
  end.

(** The goroutine is on its way out, or out. *)
Definition exiting (pc : LoopPc) : Prop :=
  pc = ClosingOut \/ pc = ClosingDone \/ pc = Exited.

(** What holds of a call of [Stop], by where it stands: past [f.cancel()]
    the context is done; [nil] is returned only when [f.doneCh] has been
    closed, an error only when the context given to [Stop] is done. *)
Definition stop_ok (s : Sys) : Prop :=
  match stop s with
  | StopIdle => True
  | StopWaiting => ctxDone s = true /\ cancel (fetcher s) = Some tt
  | StopReturned None =>
      ctxDone s = true /\ cancel (fetcher s) = Some tt
      /\ doneClosed s = 1%nat
  | StopReturned (Some e) =>
      ctxDone s = true /\ cancel (fetcher s) = Some tt
      /\ exists ce, stopCtx s = Some ce /\ e = ErrUnsubscribe ce
  | StopPanicked => crashed s = true /\ cancel (fetcher s) = None
  end.

(** The two fields are set together, and before the goroutine exists. *)
Definition fields_ok (s : Sys) : Prop :=
  match cancel (fetcher s) with
  | None =>
      doneCh (fetcher s) = None /\ loop s = NotStarted /\ ctxDone s = false
  | Some _ => doneCh (fetcher s) = Some tt
  end.

Definition crash_ok (s : Sys) : Prop :=
  if crashed s then loop s = Panicked \/ stop s = StopPanicked
  else loop s <> Panicked.

Record sys_inv (s : Sys) : Prop := {
  inv_closes : (outClosed s, doneClosed s) = closes_of (loop s);
  inv_fields : fields_ok s;
  inv_stop : stop_ok s;
  inv_crash : crash_ok s
}.

End SubscriptionInvariant.

Section RequestShapes.
Context {tm : Tendermint}.

(** The requests a method sends that resolves [height] and then asks for
    something at the height resolved: the status request only for a [nil]
    height, and nothing after it when it fails. *)
Definition resolved_requests (f : BlockFetcher) (height : option int64ptr)
    (tr : Trace) (request : Z -> Call) : list Call :=
  match height with
  | Some p => [request (ptr_val p)]
  | None =>
      match client_Status (client f) tr with
      | inl _ => [CallStatus]
      | inr status => [CallStatus; request (coregrpc.LatestBlockHeight status)]
      end
  end.

(** How the outcome of [GetSignedBlock] stands to the outcome of [GetBlock]
    on the same stream. *)
Definition signed_of (block : outcome (option tmBlock * option error))
    (signed : outcome (option ResultSignedBlock * option error)) : Prop :=
  match block, signed with
  | Returns (Some b, None), Returns (Some sb, None) =>
      Header sb = Block_Header b /\ Data sb = Block_Data b
  | Returns (None, Some e), Returns (None, Some e') => e = e'
  | Returns (None, None), Panics => True
  | Panics, Panics => True
  | _, _ => False
  end.

End RequestShapes.

Section StreamShapes.
Context {tm : Tendermint}.

(** A message of the by-height stream reduced to what the loop
    [for !isLast] reads of it: the part and the flag. *)
Definition partOnly (resp : coregrpc.BlockByHeightResponse)
  : coregrpc.BlockByHeightResponse :=
  coregrpc.mkBlockByHeightResponse (coregrpc.BlockPart resp) None None None
    (coregrpc.IsLast resp).

(** The by-hash stream of a block cut into [payloads]: the parts numbered
    in sequence from [first], the last one flagged. *)
Fixpoint hashMessages (first : N) (payloads : list bytes)
  : list coregrpc.BlockByHashResponse :=
  match payloads with
  | [] => []
  | [b] => [coregrpc.mkBlockByHashResponse (Some (tmproto.mkPart first b)) true]
  | b :: payloads =>
      coregrpc.mkBlockByHashResponse (Some (tmproto.mkPart first b)) false
      :: hashMessages (first + 1) payloads
  end.

(** The by-height stream of such a block: the first message carries the
    block meta, the commit and the validator set as well. *)
Definition heightMessages (meta : option pbBlockMeta)
    (commit : option pbCommit) (valSet : option pbValidatorSet)
    (payloads : list bytes) : list coregrpc.BlockByHeightResponse :=
  match hashMessages 0 payloads with
  | [] => []
  | m :: rest =>
      coregrpc.mkBlockByHeightResponse (coregrpc.ByHash_BlockPart m)
        commit valSet meta (coregrpc.ByHash_IsLast m)
      :: ((fun m => coregrpc.mkBlockByHeightResponse
                      (coregrpc.ByHash_BlockPart m) None None None
                      (coregrpc.ByHash_IsLast m)) <$> rest)
  end.

(** What [partsToBlock] makes of the bytes it has read: [proto.Unmarshal]
    and then [types.BlockFromProto]. *)
Definition decodeBlock (bz : bytes) : outcome (option tmBlock * option error) :=
  match Unmarshal bz with
  | inl e => Returns (None, Some (Foreign e))
  | inr pbb =>
      match BlockFromProto pbb with
      | inl e => Returns (None, Some (Foreign e))
      | inr block => Returns (Some block, None)
      end
  end.

End StreamShapes.

Section SubscriptionShapes.
Context {tm : Tendermint}.





End SubscriptionShapes.

(** How many steps the goroutine is from its end at most, once the context
    is done, and how many events it may still deliver. *)
Definition steps_left {tm : Tendermint} (pc : LoopPc) : nat :=
  match pc with
  | AtRecv => 6
  | AtFetch _ => 5
  | AtSend _ => 4
  | AtSelect => 3
  | ClosingOut => 2
  | ClosingDone => 1
  | _ => 0
  end.

Definition may_deliver {tm : Tendermint} (pc : LoopPc) : nat :=
  match pc with
  | AtRecv | AtFetch _ | AtSend _ => 1
  | _ => 0
  end.

Ltac unfold_M :=
  unfold mbind, M_bind, bind, mret, M_ret, ret, call, lift, panic in *;
  simpl in *.

Ltac inv_solve :=
  repeat match goal with x : option unit |- _ => destruct x as [[]|] end;
  split; unfold fields_ok, stop_ok, crash_ok in *; simpl in *;
  intuition (subst; simpl in *; try congruence; eauto).


(** * Properties *)

(** ** Height resolution *)

Section HeightResolver.
Context {tm : Tendermint}.

(** C7. A height that is given is returned as it is and no request is
    sent; for a [nil] height exactly one status request is sent, the latest
    block height it reports is returned, and an error of that request is
    returned as it came. *)
Theorem resolveHeight_spec (f : BlockFetcher) (height : option int64ptr)
    (tr : Trace) :
  resolveHeight f height tr =
  match height with
  | Some p => (Returns (ptr_val p, None), tr)
  | None =>
      (Returns
         match client_Status (client f) tr with
         | inl err => (0, Some (Foreign err))
         | inr status => (coregrpc.LatestBlockHeight status, None)
         end,
       tr ++ [CallStatus])
  end.
Proof.
  destruct height as [p|]; [reflexivity|].
  unfold resolveHeight, mbind, M_bind, bind, call; simpl.
  destruct (client_Status (client f) tr); reflexivity.
Qed.

Lemma resolveHeight_Some (f : BlockFetcher) (p : int64ptr) (tr : Trace) :
  resolveHeight f (Some p) tr = (Returns (ptr_val p, None), tr).
Proof. reflexivity. Qed.

End HeightResolver.

(** ** Commit and validator set *)

Section ConsistencyFetcher.
Context {tm : Tendermint}.

(** What [ValidatorSet] does with a height that is given: one request, at
    the pointed-to height. *)
Lemma ValidatorSet_at (f : BlockFetcher) (p : int64ptr) (tr : Trace) :
  ValidatorSet f (Some p) tr =
  (match client_ValidatorSet (client f) tr (ptr_val p) with
   | inl err => Returns (None, Some (Foreign err))
   | inr None => Panics
   | inr (Some res) =>
       match coregrpc.ValidatorSetResponse_ValidatorSet res with
       | None => Returns (None, Some (ErrValidatorSetNotFound (ptr_addr p)))
       | Some v =>
           match ValidatorSetFromProto (Some v) with
           | inl err => Returns (None, Some (Foreign err))
           | inr validatorSet => Returns (Some validatorSet, None)
           end
       end
   end,
   tr ++ [CallValidatorSet (ptr_val p)]).
Proof.
  unfold ValidatorSet. unfold_M.
  destruct (client_ValidatorSet (client f) tr (ptr_val p)) as [e|[[[v|]]|]];
    simpl; try reflexivity.
  destruct (ValidatorSetFromProto (Some v)); reflexivity.
Qed.

(** What [Commit] does once the height is resolved. *)
Lemma Commit_resolved (f : BlockFetcher) (height : option int64ptr)
    (tr tr1 : Trace) (h : Z) :
  resolveHeight f height tr = (Returns (h, None), tr1) ->
  Commit f height tr =
  (match client_Commit (client f) tr1 h with
   | inl err => Returns (None, Some (Foreign err))
   | inr None => Panics
   | inr (Some res) =>
       match coregrpc.CommitResponse_Commit res with
       | None => Returns (None, Some (ErrCommitNotFound (fmt_d height)))
       | Some c =>
           match CommitFromProto (Some c) with
           | inl err => Returns (None, Some (Foreign err))
           | inr commit => Returns (Some commit, None)
           end
       end
   end,
   tr1 ++ [CallCommit h]).
Proof.
  intros Hres. unfold Commit. unfold_M. rewrite Hres.
  destruct (client_Commit (client f) tr1 h) as [e|[[[c|]]|]];
    simpl; try reflexivity.
  destruct (CommitFromProto (Some c)); reflexivity.
Qed.

(** C1. When the commit query of [GetBlockInfo] has returned a commit, the
    one request that follows is the validator-set query at the height that
    commit reports, whatever height (or [nil]) was asked for; and a
    validator set that [GetBlockInfo] returns is decoded from the answer to
    that query. *)
Theorem GetBlockInfo_validator_set_at_commit_height (f : BlockFetcher)
    (height : option int64ptr) (tr tr1 : Trace) (commit : tmCommit) :
  Commit f height tr = (Returns (Some commit, None), tr1) ->
  snd (GetBlockInfo f height tr)
  = tr1 ++ [CallValidatorSet (Commit_Height commit)]
  /\ forall c valSet,
       fst (GetBlockInfo f height tr) = Returns (Some c, valSet, None) ->
       c = commit
       /\ exists res validatorSet,
            client_ValidatorSet (client f) tr1 (Commit_Height commit)
            = inr (Some res)
            /\ ValidatorSetFromProto
                 (coregrpc.ValidatorSetResponse_ValidatorSet res)
               = inr validatorSet
            /\ valSet = Some validatorSet.
Proof.
  intros Hc. unfold GetBlockInfo. unfold_M. rewrite Hc.
  rewrite ValidatorSet_at. simpl.
  destruct (client_ValidatorSet (client f) tr1 (Commit_Height commit))
    as [e|[[[v|]]|]] eqn:Hv; simpl.
  - split; [reflexivity|]. intros c valSet H; discriminate.
  - destruct (ValidatorSetFromProto (Some v)) as [e|vs] eqn:Hd; simpl.
    + split; [reflexivity|]. intros c valSet H; discriminate.
    + split; [reflexivity|]. intros c valSet H. inversion H; subst.
      split; [reflexivity|]. eexists _, vs. split; [reflexivity|].
      split; [exact Hd|reflexivity].
  - split; [reflexivity|]. intros c valSet H; discriminate.
  - split; [reflexivity|]. intros c valSet H; discriminate.
Qed.

End ConsistencyFetcher.

(** The chain of [growingChain] has moved on when the validator set is
    asked for, and the query is still made at height 100 of the commit. *)
Lemma GetBlockInfo_validator_set_at_commit_height_witness :
  snd (GetBlockInfo (NewBlockFetcher growingChain) None [])
  = [CallStatus; CallCommit 100; CallValidatorSet 100].
Proof.
  exact (proj1 (GetBlockInfo_validator_set_at_commit_height
                  (NewBlockFetcher growingChain) None []
                  [CallStatus; CallCommit 100] 100 eq_refl)).
Defined.

(** C9. At a node of height 100 that has no commit and no validator set,
    the query for the latest height asks at 100 and the error says
    "not found at height 0"; for a height given through a pointer the error
    carries the pointer, 824633720832 here, not the height 7 it points to:
    [%d] is given [height], not [blockHeight]. *)
Theorem not_found_error_names_the_pointer :
  Commit (NewBlockFetcher emptyNode) None []
  = (Returns (None, Some (ErrCommitNotFound 0)), [CallStatus; CallCommit 100])
  /\ ValidatorSet (NewBlockFetcher emptyNode) None []
     = (Returns (None, Some (ErrValidatorSetNotFound 0)),
        [CallStatus; CallValidatorSet 100])
  /\ Commit (NewBlockFetcher emptyNode) (Some (mkPtr 824633720832 7)) []
     = (Returns (None, Some (ErrCommitNotFound 824633720832)), [CallCommit 7]).
Proof. repeat split. Qed.

(** ** Blocks by hash *)

Section ByHash.
Context {tm : Tendermint}.

(** C3, as the code has it.  Only the [nil] hash is refused, before any
    request; every other hash, the empty one too, opens the stream by hash
    and the parts received are reassembled. *)
Theorem GetBlockByHash_spec (f : BlockFetcher) (hash : option bytes)
    (tr : Trace) :
  GetBlockByHash f hash tr =
  match hash with
  | None => (Returns (None, Some ErrNilHash), tr)
  | Some h =>
      (match client_BlockByHash (client f) tr h with
       | inl err => Returns (None, Some (Foreign err))
       | inr stream =>
           match receiveBlockByHash stream with
           | Panics => Panics
           | Returns (_, Some err) => Returns (None, Some err)
           | Returns (block, None) => Returns (block, None)
           end
       end,
       tr ++ [CallBlockByHash h])
  end.
Proof.
  destruct hash as [h|]; [|reflexivity].
  unfold GetBlockByHash. unfold_M.
  destruct (client_BlockByHash (client f) tr h) as [e|stream]; [reflexivity|].
  destruct (receiveBlockByHash stream) as [[block [e|]]|]; reflexivity.
Qed.

End ByHash.

(** C3 fails for the empty hash that is not [nil]: the request is sent and
    a block comes back. *)
Lemma GetBlockByHash_empty_hash_is_sent :
  GetBlockByHash (NewBlockFetcher growingChain) (Some []) []
  = (Returns (Some [x78; x79], None), [CallBlockByHash []]).
Proof. reflexivity. Qed.

(** ** Part reassembly *)

Section Reassembly.
Context {tm : Tendermint}.

(** Whenever the part set refuses a part without an error, the loop leaves
    with [return nil, err] where [err] is [nil]: the test [err != nil] has
    just failed. *)
Lemma addParts_refused (ps ps' : types.PartSet) (part : tmproto.Part)
    (rest : list (option tmproto.Part)) :
  types.AddPartWithoutProof ps (toPart part) = ((false, None), ps') ->
  addParts ps (Some part :: rest) = Returns (inl None).
Proof.
  intros H. simpl. unfold toPart in H. by rewrite H.
Qed.

(** C2. Two parts that declare the same index: the part set refuses the
    second with [(false, nil)], and [partsToBlock] returns that [nil] error
    with a [nil] block. *)
Theorem partsToBlock_collision_nil_nil (x y : bytes) :
  partsToBlock [Some (tmproto.mkPart 0 x); Some (tmproto.mkPart 0 y)]
  = Returns (None, None).
Proof. reflexivity. Qed.

(** An index outside the set is reported with the error of the part set. *)
Lemma partsToBlock_out_of_range (x : bytes) :
  partsToBlock [Some (tmproto.mkPart 1 x)]
  = Returns (None, Some ErrPartSetUnexpectedIndex).
Proof. reflexivity. Qed.

End Reassembly.

(** ** Streams that break *)

Section BrokenStream.
Context {tm : Tendermint}.

(** The loop appends the parts in the order the stream delivers them and
    stops at the first part flagged last. *)
Lemma receiveRestByHeight_order (pending : list coregrpc.BlockByHeightResponse)
    (closing : string) (parts parts' : list (option tmproto.Part))
    (isLast : bool) :
  receiveRestByHeight pending closing parts isLast = inr parts' ->
  exists n, parts' = parts ++ (coregrpc.BlockPart <$> take n pending).
Proof.
  revert parts isLast.
  induction pending as [|resp pending IH]; intros parts isLast; simpl.
  - destruct isLast; [|discriminate]. intros [= <-].
    exists 0%nat. simpl. by rewrite app_nil_r.
  - destruct isLast.
    + intros [= <-]. exists 0%nat. simpl. by rewrite app_nil_r.
    + intros H. destruct (IH _ _ H) as [n ->].
      exists (S n). simpl. by rewrite <- app_assoc.
Qed.

(** When no message that is still to come is flagged last, the loop ends
    with the error of the stream. *)
Lemma receiveRestByHeight_broken (pending : list coregrpc.BlockByHeightResponse)
    (closing : string) (parts : list (option tmproto.Part)) :
  Forall (fun resp => coregrpc.IsLast resp = false) pending ->
  receiveRestByHeight pending closing parts false = inl closing.
Proof.
  intros H. revert parts.
  induction H as [|resp pending Hlast _ IH]; intros parts; simpl.
  - reflexivity.
  - rewrite Hlast. apply IH.
Qed.

Lemma receiveBlockByHeight_broken
    (stream : Stream coregrpc.BlockByHeightResponse) :
  Forall (fun resp => coregrpc.IsLast resp = false) (pending stream) ->
  exists err, receiveBlockByHeight stream = failByHeight err.
Proof.
  intros H. unfold receiveBlockByHeight, Recv.
  destruct stream as [[|resp pending] closing]; simpl in *.
  - by eexists.
  - apply Forall_cons in H as [Hlast H].
    destruct (BlockMetaFromProto _); [by eexists|].
    destruct (CommitFromProto _); [by eexists|].
    destruct (ValidatorSetFromProto _); [by eexists|].
    rewrite Hlast, receiveRestByHeight_broken by done.
    by eexists.
Qed.

(** C8. When the stream of block parts breaks before a part flagged last
    has come, [GetBlock] and [GetSignedBlock] return an error and no block,
    whatever parts came before; and neither looks at anything the fetcher
    holds besides its client. *)
Theorem GetBlock_all_or_nothing (f : BlockFetcher) (height : option int64ptr)
    (tr tr1 : Trace) (h : Z) (stream : Stream coregrpc.BlockByHeightResponse) :
  resolveHeight f height tr = (Returns (h, None), tr1) ->
  client_BlockByHeight (client f) tr1 h = inr stream ->
  Forall (fun resp => coregrpc.IsLast resp = false) (pending stream) ->
  (exists err,
     GetBlock f height tr
     = (Returns (None, Some err), tr1 ++ [CallBlockByHeight h])
     /\ GetSignedBlock f height tr
        = (Returns (None, Some err), tr1 ++ [CallBlockByHeight h]))
  /\ GetBlock (NewBlockFetcher (client f)) height tr = GetBlock f height tr
  /\ GetSignedBlock (NewBlockFetcher (client f)) height tr
     = GetSignedBlock f height tr.
Proof.
  intros Hres Hopen Hbroken.
  destruct (receiveBlockByHeight_broken stream Hbroken) as [err Herr].
  split; [|split; reflexivity].
  exists err. unfold GetBlock, GetSignedBlock. unfold_M.
  rewrite Hres, Hopen, Herr. simpl. split; reflexivity.
Qed.

End BrokenStream.

(** The stream of [emptyNode] breaks after its first part. *)
Lemma GetBlock_all_or_nothing_witness :
  exists err,
    GetBlock (NewBlockFetcher emptyNode) None []
    = (Returns (None, Some err), [CallStatus; CallBlockByHeight 100]).
Proof.
  destruct (proj1 (GetBlock_all_or_nothing (NewBlockFetcher emptyNode) None []
                     [CallStatus] 100 _ eq_refl eq_refl
                     ltac:(repeat constructor)))
    as [err [H _]].
  exists err. exact H.
Defined.

(** ** The order of reassembly *)

Lemma ofPart_toPart (part : tmproto.Part) : ofPart (toPart part) = part.
Proof. by destruct part. Qed.

Lemma ofPart_toPart_list (l : list tmproto.Part) :
  ofPart <$> (toPart <$> l) = l.
Proof.
  induction l as [|p l IH]; [reflexivity|].
  rewrite !fmap_cons, ofPart_toPart. by f_equal.
Qed.

Lemma filled_insert (slots : list (option types.Part)) (i : nat)
    (p : types.Part) :
  slots !! i = Some None -> filled (<[i := Some p]> slots) ≡ₚ p :: filled slots.
Proof.
  revert i. induction slots as [|s slots IH]; intros [|i] H; simpl in *;
    try discriminate.
  - by inversion H.
  - destruct s as [q|]; simpl.
    + rewrite (IH _ H). apply Permutation_swap.
    + apply (IH _ H).
Qed.

Lemma length_filled (slots : list (option types.Part)) :
  (length (filled slots) <= length slots)%nat.
Proof.
  induction slots as [|[q|] slots IH]; simpl; lia.
Qed.

Lemma filled_full (slots : list (option types.Part)) :
  length (filled slots) = length slots -> slots = Some <$> filled slots.
Proof.
  induction slots as [|[q|] slots IH]; simpl; intros H.
  - reflexivity.
  - f_equal. apply IH. lia.
  - pose proof (length_filled slots) as Hle. lia.
Qed.

Lemma readSlots_full (l : list types.Part) :
  types.readSlots (Some <$> l) = Returns (concat (types.Bytes <$> l)).
Proof.
  induction l as [|p l IH]; [reflexivity|].
  rewrite !fmap_cons. simpl. by rewrite IH.
Qed.

Lemma part_inv_new (Total : N) : part_inv (types.NewPartSetFromHeader Total) [].
Proof.
  split; simpl.
  - apply length_replicate.
  - reflexivity.
  - induction (N.to_nat Total); simpl; auto.
  - intros i p H. apply lookup_replicate in H as [? _]. discriminate.
Qed.

Lemma AddPartWithoutProof_inv (ps ps' : types.PartSet)
    (added : list tmproto.Part) (part : tmproto.Part) :
  part_inv ps added ->
  types.AddPartWithoutProof ps (toPart part) = ((true, None), ps') ->
  part_inv ps' (added ++ [part]).
Proof.
  intros [Hlen Hcount Hperm Hidx]. unfold types.AddPartWithoutProof.
  destruct (N.leb_spec (types.total ps) (types.Index (toPart part)))
    as [|Hlt]; [discriminate|].
  set (i := N.to_nat (types.Index (toPart part))).
  assert (Hi : (i < length (types.parts ps))%nat) by (subst i; lia).
  destruct (lookup_lt_is_Some_2 _ _ Hi) as [slot Hslot]. rewrite Hslot.
  destruct slot as [q|]; [discriminate|]. intros [= <-].
  split; simpl.
  - by rewrite length_insert.
  - rewrite length_app. simpl. lia.
  - rewrite (filled_insert _ _ _ Hslot), fmap_app, Hperm. simpl.
    by rewrite <- Permutation_cons_append.
  - intros j p. destruct (decide (i = j)) as [<-|Hne].
    + rewrite list_lookup_insert_eq by done. intros [= <-]. subst i. lia.
    + rewrite list_lookup_insert_ne by done. apply Hidx.
Qed.

Lemma addParts_inv (parts : list (option tmproto.Part)) (ps ps' : types.PartSet)
    (added : list tmproto.Part) :
  part_inv ps added ->
  addParts ps parts = Returns (inr ps') ->
  exists rest, parts = Some <$> rest /\ part_inv ps' (added ++ rest).
Proof.
  revert ps added.
  induction parts as [|[part|] parts IH]; intros ps added Hinv; simpl.
  - intros [= <-]. exists []. by rewrite app_nil_r.
  - change (types.mkPart (tmproto.Index part) (tmproto.Bytes part))
      with (toPart part).
    destruct (types.AddPartWithoutProof ps (toPart part))
      as [[ok err] ps1] eqn:Hadd.
    destruct err; [discriminate|]. destruct ok; simpl; [|discriminate].
    intros H.
    destruct (IH _ _ (AddPartWithoutProof_inv _ _ _ _ Hinv Hadd) H)
      as [rest [-> Hinv']].
    exists (part :: rest). split; [reflexivity|].
    by rewrite <- app_assoc in Hinv'.
  - discriminate.
Qed.

(** Parts that come numbered in sequence fill the free slots one after the
    other. *)
Lemma addParts_inSequence (payloads : list bytes)
    (slots : list (option types.Part)) (Total c : N) :
  Total = N.of_nat (length slots + length payloads) ->
  addParts (types.mkPartSet Total
              (slots ++ replicate (length payloads) None) c)
           (Some <$> inSequence (N.of_nat (length slots)) payloads)
  = Returns (inr (types.mkPartSet Total
       (slots ++ (Some <$> (toPart <$>
                    inSequence (N.of_nat (length slots)) payloads)))
       (c + N.of_nat (length payloads)))).
Proof.
  revert slots c.
  induction payloads as [|b payloads IH]; intros slots c HT; simpl.
  - by rewrite N.add_0_r.
  - unfold types.AddPartWithoutProof; simpl.
    destruct (N.leb_spec Total (N.of_nat (length slots))) as [Hle|_];
      [simpl in HT; lia|].
    rewrite Nat2N.id. rewrite lookup_app_r; [|lia]. rewrite Nat.sub_diag. simpl.
    set (slot := Some (types.mkPart (N.of_nat (length slots)) b)).
    assert (Hins : <[length slots := slot]>
                     (slots ++ None :: replicate (length payloads) None)
                   = (slots ++ [slot]) ++ replicate (length payloads) None).
    { rewrite insert_app_r_alt; [|lia]. rewrite Nat.sub_diag. simpl.
      by rewrite <- app_assoc. }
    assert (Hnext : (N.of_nat (length slots) + 1)%N
                    = N.of_nat (length (slots ++ [slot]))).
    { rewrite length_app. simpl. lia. }
    rewrite Hins, Hnext.
    etrans; [apply IH|].
    + rewrite length_app. simpl in *. lia.
    + rewrite <- app_assoc, <- Hnext. simpl. do 2 f_equal.
      f_equal; first [reflexivity | lia].
Qed.

Lemma inSequence_payloads (first : N) (payloads : list bytes) :
  types.Bytes <$> (toPart <$> inSequence first payloads) = payloads.
Proof.
  revert first. induction payloads as [|b payloads IH]; intros first; simpl.
  - reflexivity.
  - f_equal. apply IH.
Qed.

Lemma length_inSequence (first : N) (payloads : list bytes) :
  length (inSequence first payloads) = length payloads.
Proof.
  revert first. induction payloads as [|b payloads IH]; intros first; simpl.
  - reflexivity.
  - f_equal. apply IH.
Qed.

Lemma elem_of_filled (slots : list (option types.Part)) (i : nat)
    (q : types.Part) :
  slots !! i = Some (Some q) -> q ∈ filled slots.
Proof.
  revert i. induction slots as [|[p|] slots IH]; intros [|i] H; simpl in *;
    try discriminate.
  - inversion H. by left.
  - right. by apply (IH i).
  - by apply (IH i).
Qed.

Lemma addParts_total_eq (parts : list (option tmproto.Part))
    (ps ps' : types.PartSet) :
  addParts ps parts = Returns (inr ps') -> types.total ps' = types.total ps.
Proof.
  revert ps. induction parts as [|[part|] parts IH]; intros ps; simpl.
  - by intros [= <-].
  - unfold types.AddPartWithoutProof.
    destruct (types.total ps <=? _)%N; [discriminate|].
    destruct (types.parts ps !! _) as [[q|]|]; try discriminate;
      simpl; intros H; by rewrite (IH _ H).
  - discriminate.
Qed.

(** Parts that are all there and whose indices are distinct and in range
    all find a free slot. *)
Lemma addParts_succeeds (rest added : list tmproto.Part) (ps : types.PartSet) :
  part_inv ps added ->
  NoDup (tmproto.Index <$> (added ++ rest)) ->
  Forall (fun p => (tmproto.Index p < types.total ps)%N) rest ->
  exists ps', addParts ps (Some <$> rest) = Returns (inr ps')
              /\ part_inv ps' (added ++ rest).
Proof.
  revert added ps.
  induction rest as [|p rest IH]; intros added ps Hinv Hnd Hlt.
  - exists ps. by rewrite app_nil_r.
  - rewrite fmap_cons. simpl.
    change (types.mkPart (tmproto.Index p) (tmproto.Bytes p)) with (toPart p).
    apply Forall_cons in Hlt as [Hp Hlt].
    assert (Hadd : exists ps1,
               types.AddPartWithoutProof ps (toPart p) = ((true, None), ps1)).
    { unfold types.AddPartWithoutProof. simpl.
      destruct (N.leb_spec (types.total ps) (tmproto.Index p)); [lia|].
      destruct (types.parts ps !! N.to_nat (tmproto.Index p))
        as [[q|]|] eqn:Hslot; [|by eexists..].
      exfalso.
      pose proof (inv_index _ _ Hinv _ _ Hslot) as Hq.
      apply elem_of_filled in Hslot.
      rewrite (inv_perm _ _ Hinv) in Hslot.
      apply list_elem_of_fmap in Hslot as (p' & -> & Hp').
      simpl in Hq. rewrite N2Nat.id in Hq.
      rewrite fmap_app, fmap_cons in Hnd.
      apply NoDup_app in Hnd as (_ & Hnd & _).
      apply (Hnd (tmproto.Index p)).
      - rewrite <- Hq. by apply list_elem_of_fmap_2.
      - by left. }
    destruct Hadd as [ps1 Hadd]. rewrite Hadd. simpl.
    pose proof (AddPartWithoutProof_inv _ _ _ _ Hinv Hadd) as Hinv1.
    assert (Htot : types.total ps1 = types.total ps).
    { unfold types.AddPartWithoutProof in Hadd.
      destruct (types.total ps <=? _)%N; [discriminate|].
      destruct (types.parts ps !! _) as [[q|]|]; by inversion Hadd. }
    destruct (IH (added ++ [p]) ps1 Hinv1) as (ps' & Hps' & Hinv').
    + by rewrite <- app_assoc.
    + by rewrite Htot.
    + exists ps'. split; [done|]. by rewrite <- app_assoc in Hinv'.
Qed.

Lemma addParts_no_panic (parts : list tmproto.Part) (ps : types.PartSet) :
  addParts ps (Some <$> parts) <> Panics.
Proof.
  revert ps. induction parts as [|p parts IH]; intros ps; [done|].
  rewrite fmap_cons. simpl.
  destruct (types.AddPartWithoutProof _ _) as [[ok [e|]] ps1]; [done|].
  destruct ok; simpl; [apply IH|done].
Qed.

(** A part set that has taken every part of [partsToBlock] is complete and
    has every slot filled; the number of parts then fits in 32 bits. *)
Lemma part_inv_complete (parts : list tmproto.Part) (ps : types.PartSet) :
  part_inv ps parts ->
  types.total ps = uint32 (N.of_nat (length parts)) ->
  (N.of_nat (length parts) < 2 ^ 32)%N
  /\ types.IsComplete ps = true
  /\ types.parts ps = Some <$> filled (types.parts ps).
Proof.
  intros [Hlen Hcount Hperm Hidx] Htot.
  pose proof (length_filled (types.parts ps)) as Hle.
  rewrite Hperm, length_fmap, Hlen, Htot in Hle. unfold uint32 in *.
  pose proof (N.Div0.mod_le (N.of_nat (length parts)) (2 ^ 32)) as Hm.
  pose proof (N.mod_upper_bound (N.of_nat (length parts)) (2 ^ 32)
                ltac:(done)) as Hu.
  assert (Heq : (N.of_nat (length parts) mod 2 ^ 32)%N
                = N.of_nat (length parts)) by lia.
  split; [lia|]. split.
  - unfold types.IsComplete. by rewrite Hcount, Htot, Heq, N.eqb_refl.
  - apply filled_full. rewrite Hperm, length_fmap, Hlen, Htot, Heq. lia.
Qed.

(** The reader of a complete set whose slots are all filled: it panics
    when there is no slot, and otherwise yields the payloads slot by slot. *)
Lemma ReadAll_GetReader_full (ps : types.PartSet) (slots : list types.Part) :
  types.IsComplete ps = true ->
  types.parts ps = Some <$> slots ->
  types.ReadAll_GetReader ps
  = match slots with
    | [] => Panics
    | _ :: _ => Returns (concat (types.Bytes <$> slots), None)
    end.
Proof.
  intros Hc Hs. unfold types.ReadAll_GetReader. rewrite Hc, Hs.
  destruct slots as [|q slots]; [reflexivity|].
  rewrite fmap_cons, <- (fmap_cons Some), readSlots_full. reflexivity.
Qed.

(** What [partsToBytes] does with parts that are all there: a part is
    refused, or there is no part and the reader panics, or every slot is
    filled with the part that declares its number and the bytes are read
    slot by slot. *)
Lemma partsToBytes_cases (parts : list tmproto.Part) :
  (exists r, partsToBytes (Some <$> parts) = Returns (inl r))
  \/ (parts = [] /\ partsToBytes (Some <$> parts) = Panics)
  \/ (exists slots : list types.Part,
        parts <> []
        /\ slots ≡ₚ toPart <$> parts
        /\ (forall i q, slots !! i = Some q -> types.Index q = N.of_nat i)
        /\ (N.of_nat (length parts) < 2 ^ 32)%N
        /\ partsToBytes (Some <$> parts)
           = Returns (inr (concat (types.Bytes <$> slots)))).
Proof.
  unfold partsToBytes. rewrite length_fmap.
  destruct (addParts _ (Some <$> parts)) as [[r|ps]|] eqn:Hadd.
  - left. by exists r.
  - right.
    destruct (addParts_inv _ _ _ _ (part_inv_new _) Hadd)
      as (rest & Heq & Hinv).
    apply (inj (fmap Some)) in Heq. subst rest. simpl in Hinv.
    pose proof (addParts_total_eq _ _ _ Hadd) as Htot. simpl in Htot.
    destruct (part_inv_complete _ _ Hinv Htot) as (Hlt & Hc & Hfull).
    rewrite (ReadAll_GetReader_full _ _ Hc Hfull).
    pose proof (inv_perm _ _ Hinv) as Hperm.
    destruct (filled (types.parts ps)) as [|q slots] eqn:Hf.
    + left. split; [|reflexivity].
      apply Permutation_length in Hperm. rewrite length_fmap in Hperm.
      by destruct parts.
    + right. exists (q :: slots). split; [|split; [|split; [|split]]].
      * intros ->. apply Permutation_length in Hperm. discriminate.
      * done.
      * intros i p Hp. apply (inv_index _ _ Hinv).
        by rewrite Hfull, list_lookup_fmap, Hp.
      * done.
      * reflexivity.
  - by apply addParts_no_panic in Hadd.
Qed.

(** Slots filled by their number hold distinct indices, all below the
    number of slots. *)
Lemma positions_distinct (slots : list types.Part) :
  (forall i q, slots !! i = Some q -> types.Index q = N.of_nat i) ->
  NoDup (types.Index <$> slots)
  /\ Forall (fun q => (types.Index q < N.of_nat (length slots))%N) slots.
Proof.
  intros Hpos. split.
  - apply NoDup_alt. intros i j x. rewrite !list_lookup_fmap.
    destruct (slots !! i) as [qi|] eqn:Hi; [|done].
    destruct (slots !! j) as [qj|] eqn:Hj; [|done].
    simpl. intros [= <-] [= Hx].
    rewrite (Hpos _ _ Hi), (Hpos _ _ Hj) in Hx. lia.
  - apply Forall_forall. intros q Hq.
    apply list_elem_of_lookup in Hq as [i Hq].
    rewrite (Hpos _ _ Hq). apply lookup_lt_Some in Hq. lia.
Qed.

(** There is one way only to fill the slots by number with given parts. *)
Lemma slots_unique (l1 l2 : list types.Part) :
  l1 ≡ₚ l2 ->
  (forall i q, l1 !! i = Some q -> types.Index q = N.of_nat i) ->
  (forall i q, l2 !! i = Some q -> types.Index q = N.of_nat i) ->
  l1 = l2.
Proof.
  intros Hperm H1 H2. apply list_eq. intros i.
  destruct (l1 !! i) as [q|] eqn:Hq.
  - assert (Hin : q ∈ l2).
    { rewrite <- Hperm. by apply list_elem_of_lookup_2 with i. }
    apply list_elem_of_lookup in Hin as [j Hj].
    pose proof (H1 _ _ Hq) as Hi. pose proof (H2 _ _ Hj) as Hj'.
    assert (i = j) as -> by lia. by rewrite Hj.
  - symmetry. apply lookup_ge_None. apply lookup_ge_None in Hq.
    by rewrite <- (Permutation_length Hperm).
Qed.

(** Parts that are all there, at least one of them, with indices that are
    distinct and below their number, are read from the part set. *)
Lemma partsToBytes_reads (parts : list tmproto.Part) :
  parts <> [] ->
  NoDup (tmproto.Index <$> parts) ->
  Forall (fun p => (tmproto.Index p < N.of_nat (length parts))%N) parts ->
  (N.of_nat (length parts) < 2 ^ 32)%N ->
  exists bz, partsToBytes (Some <$> parts) = Returns (inr bz).
Proof.
  intros Hne Hnd Hlt Hsmall.
  destruct (addParts_succeeds parts []
              (types.NewPartSetFromHeader (uint32 (N.of_nat (length parts))))
              (part_inv_new _) Hnd) as (ps' & Hadd & Hinv).
  { simpl. unfold uint32. by rewrite N.mod_small. }
  destruct (partsToBytes_cases parts)
    as [[r Hr]|[[Hnil _]|(slots & _ & _ & _ & _ & Hbz)]].
  - unfold partsToBytes in Hr. rewrite length_fmap, Hadd in Hr.
    simpl in Hinv.
    pose proof (addParts_total_eq _ _ _ Hadd) as Htot. simpl in Htot.
    destruct (part_inv_complete _ _ Hinv Htot) as (_ & Hc & Hfull).
    rewrite (ReadAll_GetReader_full _ _ Hc Hfull) in Hr.
    by destruct (filled (types.parts ps')).
  - done.
  - by eexists.
Qed.

(** Parts that come numbered in sequence are read in that sequence. *)
Lemma partsToBytes_inSequence (payloads : list bytes) :
  payloads <> [] ->
  (N.of_nat (length payloads) < 2 ^ 32)%N ->
  partsToBytes (Some <$> inSequence 0 payloads)
  = Returns (inr (concat payloads)).
Proof.
  intros Hne Hlt. unfold partsToBytes.
  rewrite length_fmap, length_inSequence.
  unfold uint32. rewrite N.mod_small by done.
  unfold types.NewPartSetFromHeader. rewrite Nat2N.id.
  pose proof (addParts_inSequence payloads [] (N.of_nat (length payloads)) 0
                eq_refl) as H.
  change (N.of_nat (length (@nil (option types.Part)))) with 0%N in H.
  simpl in H. rewrite H.
  rewrite (ReadAll_GetReader_full _ (toPart <$> inSequence 0 payloads)).
  - rewrite inSequence_payloads. by destruct payloads.
  - unfold types.IsComplete. simpl. apply N.eqb_refl.
  - reflexivity.
Qed.

(** The by-hash loop appends the parts in the order the stream delivers
    them, as the by-height loop does. *)
Lemma receiveRestByHash_order (pending : list coregrpc.BlockByHashResponse)
    (closing : string) (parts parts' : list (option tmproto.Part))
    (isLast : bool) :
  receiveRestByHash pending closing parts isLast = inr parts' ->
  exists n, parts' = parts ++ (coregrpc.ByHash_BlockPart <$> take n pending).
Proof.
  revert parts isLast.
  induction pending as [|resp pending IH]; intros parts isLast; simpl.
  - destruct isLast; [|discriminate]. intros [= <-].
    exists 0%nat. simpl. by rewrite app_nil_r.
  - destruct isLast.
    + intros [= <-]. exists 0%nat. simpl. by rewrite app_nil_r.
    + intros H. destruct (IH _ _ H) as [n ->].
      exists (S n). simpl. by rewrite <- app_assoc.
Qed.

Section ReceiveOrder.
Context {tm : Tendermint}.

(** C6, as the code has it.  Four facts.  (1) The bytes [partsToBlock]
    decodes are the payloads in the order of the indices the parts declare:
    when bytes are read, the parts received are, up to their order, the
    parts [ordered], the part at position [i] of [ordered] declares index
    [i], and the bytes are the payloads of [ordered] one after the other.
    (2) For parts received with their indices in sequence, at least one and
    fewer than 2^32 of them, this is the order of receipt, and reassembly
    does yield the bytes.  (3) The order of receipt is not checked: when
    parts are reassembled, the same parts received in any other order are
    reassembled to the same bytes.  (4) [receiveBlockByHeight] and
    [receiveBlockByHash] collect the parts in the order of receipt: a block
    they return is what [partsToBlock] makes of the parts of the first
    messages of the stream, in the order of the stream. *)
Theorem partsToBytes_index_order :
  (forall (parts : list (option tmproto.Part)) (bz : bytes),
     partsToBytes parts = Returns (inr bz) ->
     exists ordered : list tmproto.Part,
       Some <$> ordered ≡ₚ parts
       /\ (forall i p, ordered !! i = Some p -> tmproto.Index p = N.of_nat i)
       /\ bz = concat (tmproto.Bytes <$> ordered))
  /\ (forall payloads : list bytes,
        payloads <> [] ->
        (N.of_nat (length payloads) < 2 ^ 32)%N ->
        partsToBytes (Some <$> inSequence 0 payloads)
        = Returns (inr (concat payloads)))
  /\ (forall (parts parts' : list tmproto.Part) (bz : bytes),
        parts ≡ₚ parts' ->
        partsToBytes (Some <$> parts) = Returns (inr bz) ->
        partsToBytes (Some <$> parts') = Returns (inr bz))
  /\ (forall (stream : Stream coregrpc.BlockByHeightResponse)
             (block : option tmBlock) (blockMeta : option tmBlockMeta)
             (commit : option tmCommit) (validatorSet : option tmValidatorSet),
        receiveBlockByHeight stream
        = Returns (block, blockMeta, commit, validatorSet, None) ->
        exists n,
          partsToBlock (coregrpc.BlockPart <$> take n (pending stream))
          = Returns (block, None))
  /\ (forall (stream : Stream coregrpc.BlockByHashResponse)
             (block : option tmBlock),
        receiveBlockByHash stream = Returns (block, None) ->
        exists n,
          partsToBlock (coregrpc.ByHash_BlockPart <$> take n (pending stream))
          = Returns (block, None)).
Proof.
  split; [|split; [|split; [|split]]].
  - intros parts bz. unfold partsToBytes.
    destruct (addParts _ parts) as [[r|ps]|] eqn:Hadd; try discriminate.
    destruct (addParts_inv _ _ _ _ (part_inv_new _) Hadd)
      as (rest & -> & Hinv). simpl in Hinv.
    pose proof (addParts_total_eq _ _ _ Hadd) as Htot. simpl in Htot.
    rewrite length_fmap in Htot.
    destruct (part_inv_complete _ _ Hinv Htot) as (_ & Hc & Hfull).
    rewrite (ReadAll_GetReader_full _ _ Hc Hfull).
    destruct (filled (types.parts ps)) as [|q slots] eqn:Hf; [discriminate|].
    rewrite <- Hf in Hfull |- *. intros [= <-].
    exists (ofPart <$> filled (types.parts ps)). split; [|split].
    + by rewrite (inv_perm _ _ Hinv), ofPart_toPart_list.
    + intros i p. rewrite list_lookup_fmap.
      destruct (filled (types.parts ps) !! i) as [q'|] eqn:Hq;
        [|discriminate].
      intros [= <-]. simpl. apply (inv_index _ _ Hinv).
      by rewrite Hfull, list_lookup_fmap, Hq.
    + by rewrite <- list_fmap_compose.
  - apply partsToBytes_inSequence.
  - intros parts parts' bz Hperm Hread.
    destruct (partsToBytes_cases parts)
      as [[r Hr]|[[_ Hp]|(slots & Hne & Hs & Hpos & Hlt & Hbz)]];
      try congruence.
    destruct (positions_distinct slots Hpos) as [Hnd Hrange].
    assert (Hidx : tmproto.Index <$> parts' ≡ₚ types.Index <$> slots).
    { rewrite Hs, <- Hperm, <- list_fmap_compose. done. }
    assert (Hlen : length slots = length parts').
    { rewrite <- (length_fmap types.Index slots), <- Hidx.
      by rewrite length_fmap. }
    destruct (partsToBytes_reads parts') as [bz' Hread'].
    + intros ->. apply Permutation_length in Hperm. by destruct parts.
    + by rewrite Hidx.
    + apply Forall_forall. intros p Hp'.
      assert (Hin : tmproto.Index p ∈ types.Index <$> slots).
      { rewrite <- Hidx. by apply list_elem_of_fmap_2. }
      apply list_elem_of_fmap in Hin as (q & -> & Hq).
      rewrite Forall_forall in Hrange. rewrite <- Hlen. by apply Hrange.
    + by rewrite <- (Permutation_length Hperm).
    + destruct (partsToBytes_cases parts')
        as [[r Hr]|[[_ Hp]|(slots' & _ & Hs' & Hpos' & _ & Hbz')]];
        try congruence.
      assert (slots' = slots) as ->.
      { apply slots_unique; [|done..]. by rewrite Hs', Hs, Hperm. }
      congruence.
  - intros [[|resp pending] closing] block blockMeta commit validatorSet;
      unfold receiveBlockByHeight, Recv, failByHeight; simpl; [discriminate|].
    destruct (BlockMetaFromProto _); [discriminate|].
    destruct (CommitFromProto _); [discriminate|].
    destruct (ValidatorSetFromProto _); [discriminate|].
    destruct (receiveRestByHeight _ _ _ _) as [e|parts] eqn:Hrest;
      [discriminate|].
    destruct (receiveRestByHeight_order _ _ _ _ _ Hrest) as [n ->].
    intros H. exists (S n). simpl.
    destruct (partsToBlock _) as [[b [e|]]|]; [discriminate| |discriminate].
    by inversion H.
  - intros [pending closing] block. unfold receiveBlockByHash. simpl.
    destruct (receiveRestByHash _ _ _ _) as [e|parts] eqn:Hrest;
      [discriminate|].
    destruct (receiveRestByHash_order _ _ _ _ _ Hrest) as [n ->].
    intros H. by exists n.
Qed.

End ReceiveOrder.

(** C6 fails when the parts come out of index order: the second part
    received goes first, the bytes are not the payloads in the order of
    receipt, and nothing is reported. *)
Lemma partsToBytes_not_receive_order :
  partsToBytes [Some (tmproto.mkPart 1 [x79]); Some (tmproto.mkPart 0 [x78])]
  = Returns (inr [x78; x79])
  /\ [x78; x79] <> [x79] ++ [x78]
  /\ partsToBytes [Some (tmproto.mkPart 1 [x79]); Some (tmproto.mkPart 0 [x78])]
     = partsToBytes [Some (tmproto.mkPart 0 [x78]); Some (tmproto.mkPart 1 [x79])].
Proof. repeat split. discriminate. Qed.

(** Payloads "x" and "y" numbered 0 and 1, received in this order and in
    the other. *)
Lemma partsToBytes_index_order_witness :
  partsToBytes (Some <$> inSequence 0 [[x78]; [x79]])
  = Returns (inr [x78; x79])
  /\ partsToBytes (Some <$> [partY; partX]) = Returns (inr [x78; x79]).
Proof.
  pose proof (partsToBytes_index_order (tm := plainTendermint))
    as (_ & Hseq & Hany & _).
  split.
  - apply (Hseq [[x78]; [x79]]); [discriminate|reflexivity].
  - apply (Hany [partX; partY] [partY; partX]).
    + apply Permutation_swap.
    + reflexivity.
Defined.

(** ** The life of a subscription *)

Section Subscription.
Context {tm : Tendermint}.

Lemma run_snoc (s : Sys) (schedule : list Input) (i : Input) :
  run s (schedule ++ [i]) = step (run s schedule) i.
Proof. unfold run. by rewrite fold_left_app. Qed.

Lemma run_app (s : Sys) (sched1 sched2 : list Input) :
  run s (sched1 ++ sched2) = run (run s sched1) sched2.
Proof. unfold run. by rewrite fold_left_app. Qed.

Lemma sys_inv_init (client : Client) : sys_inv (init client).
Proof. by split. Qed.

Lemma sys_inv_step (s : Sys) (i : Input) : sys_inv s -> sys_inv (step s i).
Proof.
  intros Hinv. unfold step.
  destruct (crashed s) eqn:Hcr; [exact Hinv|].
  destruct Hinv as [Hcl Hf Hst Hc].
  destruct s as [[cl dch can] cd oc dc dl sub pc st sctx tr cr].
  simpl in *. subst cr.
  destruct i as [|takeSend|ctxErr|takeDone|err|]; simpl.
  - (* CallSubscribe *)
    destruct can as [[]|]; [inv_solve|].
    unfold SubscribeNewBlockEvent, call; simpl.
    destruct (client_SubscribeNewHeights cl tr) as [e|subscription];
      destruct st as [| |[e'|]|]; inv_solve.
  - (* LoopStep *)
    unfold receiveLoop; simpl.
    destruct pc; simpl in *; inversion Hcl; subst.
    + inv_solve.
    + destruct cd, st as [| |[e'|]|]; inv_solve.
    + destruct (Recv sub) as [[e|resp] sub'], st as [| |[e'|]|]; inv_solve.
    + destruct (GetSignedBlock _ _ tr) as [[[[sb|] [e|]]|] tr'],
        st as [| |[e'|]|]; inv_solve.
    + destruct takeSend, cd, st as [| |[e'|]|]; inv_solve.
    + destruct st as [| |[e'|]|]; inv_solve.
    + destruct st as [| |[e'|]|]; inv_solve.
    + inv_solve.
    + inv_solve.
  - (* CallStop *)
    unfold Stop_cancel; simpl.
    destruct st as [| |[e'|]|], can as [[]|]; inv_solve.
  - (* StopStep *)
    destruct st as [| |[e'|]|]; [inv_solve| |inv_solve..].
    unfold Stop_select; simpl.
    destruct takeDone.
    + destruct dch as [[]|]; [|inv_solve].
      destruct (Nat.ltb_spec 0 dc) as [Hpos|]; [|inv_solve].
      assert (dc = 1%nat) by (destruct pc; simpl in Hcl; inversion Hcl; lia).
      inv_solve.
    + destruct sctx as [ce|]; inv_solve.
  - (* StopCtxDone *)
    destruct st as [| |[e'|]|]; [inv_solve| |inv_solve..].
    destruct sctx; inv_solve.
  - (* ParentDone *)
    destruct can as [[]|], st as [| |[e'|]|]; inv_solve.
Qed.

Lemma sys_inv_run (s : Sys) (schedule : list Input) :
  sys_inv s -> sys_inv (run s schedule).
Proof.
  revert s. induction schedule as [|i schedule IH]; intros s H; simpl.
  - exact H.
  - apply IH, sys_inv_step, H.
Qed.

Lemma sys_inv_reachable (client : Client) (schedule : list Input) :
  sys_inv (run (init client) schedule).
Proof. apply sys_inv_run, sys_inv_init. Qed.

(** Only [SubscribeNewBlockEvent] writes the fields of the fetcher. *)
Lemma fetcher_step (s : Sys) (i : Input) :
  i <> CallSubscribe -> fetcher (step s i) = fetcher s.
Proof.
  intros Hi. unfold step. destruct (crashed s); [reflexivity|].
  destruct i as [|takeSend|ctxErr|takeDone|err|]; [done|..].
  - unfold receiveLoop.
    destruct (loop s); simpl; try reflexivity.
    + destruct (Recv (subscription s)) as [[e|resp] sub']; reflexivity.
    + destruct (GetSignedBlock _ _ _) as [[[[sb|] [e|]]|] tr']; reflexivity.
    + destruct takeSend; [reflexivity|]. destruct (ctxDone s); reflexivity.
  - unfold Stop_cancel.
    destruct (stop s), (cancel (fetcher s)); reflexivity.
  - unfold Stop_select.
    destruct (stop s); try reflexivity.
    destruct takeDone.
    + destruct (doneCh (fetcher s)); [|reflexivity].
      destruct (0 <? doneClosed s)%nat; reflexivity.
    + destruct (stopCtx s); reflexivity.
  - destruct (stop s), (stopCtx s); reflexivity.
  - destruct (cancel (fetcher s)); reflexivity.
Qed.

Lemma fetcher_run (s : Sys) (schedule : list Input) :
  CallSubscribe ∉ schedule -> fetcher (run s schedule) = fetcher s.
Proof.
  revert s. induction schedule as [|i schedule IH]; intros s Hno; simpl.
  - reflexivity.
  - rewrite IH by (intros Hin; apply Hno; by right).
    apply fetcher_step. intros ->. apply Hno. by left.
Qed.

Lemma subscribed_run (client : Client) (schedule : list Input) :
  fetcher (run (init client) schedule) <> NewBlockFetcher client ->
  CallSubscribe ∈ schedule.
Proof.
  induction schedule as [|i schedule IH] using rev_ind; [done|].
  rewrite run_snoc. intros Hne. apply elem_of_app.
  destruct i; try (left; apply IH; by rewrite fetcher_step in Hne).
  right. by left.
Qed.

(** Once the context is done it stays done. *)
Lemma ctxDone_step (s : Sys) (i : Input) :
  sys_inv s -> ctxDone s = true -> ctxDone (step s i) = true.
Proof.
  intros [_ Hf _ _] Hd. unfold step, fields_ok in *.
  destruct (crashed s); [done|].
  destruct i as [|takeSend|ctxErr|takeDone|err|].
  - destruct (cancel (fetcher s)); [done|].
    destruct Hf as (_ & _ & Hf). congruence.
  - unfold receiveLoop.
    destruct (loop s); simpl; try done.
    + destruct (Recv (subscription s)) as [[e|resp] sub']; done.
    + destruct (GetSignedBlock _ _ _) as [[[[sb|] [e|]]|] tr']; done.
    + destruct takeSend; [done|]. by rewrite Hd.
  - unfold Stop_cancel.
    destruct (stop s), (cancel (fetcher s)); done.
  - unfold Stop_select.
    destruct (stop s); try done.
    destruct takeDone.
    + destruct (doneCh (fetcher s)); [|done].
      destruct (0 <? doneClosed s)%nat; done.
    + destruct (stopCtx s); done.
  - destruct (stop s), (stopCtx s); done.
  - destruct (cancel (fetcher s)); done.
Qed.

Lemma ctxDone_run (s : Sys) (later : list Input) :
  sys_inv s -> ctxDone s = true -> ctxDone (run s later) = true.
Proof.
  revert s. induction later as [|i later IH]; intros s Hinv Hd; simpl.
  - exact Hd.
  - apply IH; [by apply sys_inv_step|by apply ctxDone_step].
Qed.

(** A goroutine on its way out sends no request, delivers no event and
    reads no further height, whatever else happens. *)
Lemma exiting_step (s : Sys) (i : Input) :
  sys_inv s -> exiting (loop s) ->
  exiting (loop (step s i)) /\ trace (step s i) = trace s
  /\ delivered (step s i) = delivered s
  /\ subscription (step s i) = subscription s.
Proof.
  intros [_ Hf _ _] Hex. unfold step, fields_ok, exiting in *.
  destruct (crashed s); [done|].
  destruct i as [|takeSend|ctxErr|takeDone|err|].
  - destruct (cancel (fetcher s)); [done|].
    destruct Hf as (_ & Hf & _). rewrite Hf in Hex.
    destruct Hex as [?|[?|?]]; discriminate.
  - unfold receiveLoop.
    destruct Hex as [H|[H|H]]; rewrite H; simpl; auto.
  - unfold Stop_cancel.
    destruct (stop s), (cancel (fetcher s)); done.
  - unfold Stop_select.
    destruct (stop s); try done.
    destruct takeDone.
    + destruct (doneCh (fetcher s)); [|done].
      destruct (0 <? doneClosed s)%nat; done.
    + destruct (stopCtx s); done.
  - destruct (stop s), (stopCtx s); done.
  - destruct (cancel (fetcher s)); done.
Qed.

Lemma exiting_run (s : Sys) (later : list Input) :
  sys_inv s -> exiting (loop s) ->
  exiting (loop (run s later)) /\ trace (run s later) = trace s
  /\ delivered (run s later) = delivered s
  /\ subscription (run s later) = subscription s.
Proof.
  revert s. induction later as [|i later IH]; intros s Hinv Hex; simpl.
  - done.
  - destruct (exiting_step s i Hinv Hex) as (Hex' & <- & <- & <-).
    apply IH; [by apply sys_inv_step|done].
Qed.

(** A goroutine that is running is in a process that has not crashed. *)
Lemma running_not_crashed (s : Sys) :
  sys_inv s -> loop s <> NotStarted -> loop s <> Panicked ->
  crashed s = false.
Proof.
  intros [_ Hf Hst Hc] Hns Hnp. unfold fields_ok, stop_ok, crash_ok in *.
  destruct (crashed s); [|done].
  destruct Hc as [?|Hc]; [done|]. rewrite Hc in Hst.
  destruct Hst as [_ Hcan]. rewrite Hcan in Hf. by destruct Hf as (_ & ? & _).
Qed.

(** The deferred calls: two steps take the goroutine from the end of its
    loop to its end. *)
Lemma closing_steps (s : Sys) (b1 b2 : bool) :
  crashed s = false -> loop s = ClosingOut ->
  let s2 := run s [LoopStep b1; LoopStep b2] in
  loop s2 = Exited /\ outClosed s2 = S (outClosed s)
  /\ doneClosed s2 = S (doneClosed s).
Proof.
  destruct s as [f cd oc dc dl sub pc st sctx tr cr]; simpl.
  intros -> ->. by cbv.
Qed.

(** C4. The goroutine leaves its loop at the first sign of trouble: when it
    sees the context done, when [Recv] fails, when the fetch of one height
    fails; it then closes [signedBlockCh] and [f.doneCh], once each, and
    from the moment it leaves the loop it sends no request (no retry, no new
    subscription), delivers no event and reads no further height.  The
    number of closes is fixed by where the goroutine stands: none while the
    loop runs, one of each when the goroutine is gone. *)
Theorem receiveLoop_exit_closes_once (client : Client)
    (schedule : list Input) :
  let s := run (init client) schedule in
  (outClosed s, doneClosed s) = closes_of (loop s)
  /\ (loop s = AtSelect -> ctxDone s = true ->
      forall b, loop (step s (LoopStep b)) = ClosingOut)
  /\ (forall err sub,
        loop s = AtRecv -> Recv (subscription s) = (inl err, sub) ->
        forall b, loop (step s (LoopStep b)) = ClosingOut
                  /\ trace (step s (LoopStep b)) = trace s)
  /\ (forall resp r err tr,
        loop s = AtFetch resp ->
        GetSignedBlock (fetcher s) (Some (ref_Height resp)) (trace s)
        = (Returns (r, Some err), tr) ->
        forall b, loop (step s (LoopStep b)) = ClosingOut
                  /\ trace (step s (LoopStep b)) = tr
                  /\ delivered (step s (LoopStep b)) = delivered s)
  /\ (forall ev,
        loop s = AtSend ev -> ctxDone s = true ->
        loop (step s (LoopStep false)) = ClosingOut
        /\ delivered (step s (LoopStep false)) = delivered s)
  /\ (loop s = ClosingOut ->
      (forall b1 b2,
         let s2 := run s [LoopStep b1; LoopStep b2] in
         loop s2 = Exited /\ outClosed s2 = 1%nat /\ doneClosed s2 = 1%nat)
      /\ forall later,
           let s' := run s later in
           exiting (loop s') /\ trace s' = trace s
           /\ delivered s' = delivered s
           /\ subscription s' = subscription s).
Proof.
  intros s. pose proof (sys_inv_reachable client schedule) as Hinv.
  fold s in Hinv. pose proof (inv_closes s Hinv) as Hcl.
  split; [exact Hcl|].
  assert (Hrun : forall pc, loop s = pc -> pc <> NotStarted ->
                            pc <> Panicked -> crashed s = false).
  { intros pc <-. by apply running_not_crashed. }
  assert (Hstep : forall pc b, loop s = pc -> pc <> NotStarted ->
                               pc <> Panicked ->
                               step s (LoopStep b) = receiveLoop b s).
  { intros pc b Hpc ? ?. unfold step. by rewrite (Hrun pc). }
  split; [|split; [|split; [|split]]].
  - intros Hpc Hd b. rewrite (Hstep _ b Hpc) by done.
    unfold receiveLoop. by rewrite Hpc, Hd.
  - intros err sub Hpc Hrecv b. rewrite (Hstep _ b Hpc) by done.
    unfold receiveLoop. by rewrite Hpc, Hrecv.
  - intros resp r err tr Hpc Hget b. rewrite (Hstep _ b Hpc) by done.
    unfold receiveLoop. rewrite Hpc, Hget. by destruct r.
  - intros ev Hpc Hd. rewrite (Hstep _ false Hpc) by done.
    unfold receiveLoop. by rewrite Hpc, Hd.
  - intros Hpc. split.
    + intros b1 b2.
      destruct (closing_steps s b1 b2 (Hrun _ Hpc ltac:(done) ltac:(done)) Hpc)
        as (Hex & Hout & Hdone).
      rewrite Hpc in Hcl. simpl in Hcl. injection Hcl as Ho Hd.
      rewrite Ho in Hout. rewrite Hd in Hdone. done.
    + intros later. apply exiting_run; [done|]. by left.
Qed.

(** C5. [Stop] first cancels and then waits.  A call that has got past
    [f.cancel()] finds the context done, and so does everything after it;
    the wait returns [nil] when it takes the case of [f.doneCh], which it
    can only when the channel has been closed; it returns the error of the
    caller's context, wrapped, when it takes the other case, which it can
    only when that context is done; and [nil] is never returned while
    [f.doneCh] is open. *)
Theorem Stop_cancels_then_waits (client : Client) (schedule : list Input) :
  let s := run (init client) schedule in
  match stop s with
  | StopIdle | StopPanicked => True
  | StopWaiting => ctxDone s = true
  | StopReturned None => ctxDone s = true /\ doneClosed s = 1%nat
  | StopReturned (Some e) =>
      ctxDone s = true
      /\ exists ce, stopCtx s = Some ce /\ e = ErrUnsubscribe ce
  end
  /\ (forall ctxErr,
        crashed s = false -> stop s <> StopWaiting ->
        cancel (fetcher s) = Some tt ->
        let s1 := step s (CallStop ctxErr) in
        stop s1 = StopWaiting /\ ctxDone s1 = true /\ stopCtx s1 = ctxErr
        /\ doneClosed s1 = doneClosed s)
  /\ (crashed s = false -> stop s = StopWaiting ->
      (doneClosed s = 1%nat ->
       stop (step s (StopStep true)) = StopReturned None)
      /\ (doneClosed s = 0%nat -> step s (StopStep true) = s)
      /\ (forall ce, stopCtx s = Some ce ->
          stop (step s (StopStep false))
          = StopReturned (Some (ErrUnsubscribe ce)))
      /\ (stopCtx s = None -> step s (StopStep false) = s))
  /\ (ctxDone s = true -> forall later, ctxDone (run s later) = true).
Proof.
  intros s. pose proof (sys_inv_reachable client schedule) as Hinv.
  fold s in Hinv. destruct Hinv as [Hcl Hf Hst Hc] eqn:Hinv'.
  clear Hinv'. unfold stop_ok, fields_ok in *.
  split; [|split; [|split]].
  - destruct (stop s) as [| |[e|]|]; tauto.
  - intros ctxErr Hcr Hnw Hcan. unfold step, Stop_cancel.
    rewrite Hcr, Hcan. by destruct (stop s).
  - intros Hcr Hw. unfold step, Stop_select. rewrite Hcr, Hw.
    rewrite Hw in Hst. destruct Hst as [_ Hcan]. rewrite Hcan in Hf.
    rewrite Hf. repeat split.
    + by intros ->.
    + by intros ->.
    + by intros ce ->.
    + by intros ->.
  - intros Hd later. by apply ctxDone_run.
Qed.

(** C10. As long as [SubscribeNewBlockEvent] has not been called, the
    fields [cancel] and [doneCh] are [nil] and a call of [Stop] panics at
    [f.cancel()]; and a call of [Stop] that has got past [f.cancel()] has
    been preceded by a call of [SubscribeNewBlockEvent], which has set both
    fields. *)
Theorem Stop_needs_subscription (client : Client) (schedule : list Input) :
  let s := run (init client) schedule in
  (CallSubscribe ∉ schedule ->
   cancel (fetcher s) = None /\ doneCh (fetcher s) = None
   /\ forall ctxErr,
        let s1 := step s (CallStop ctxErr) in
        stop s1 = StopPanicked /\ crashed s1 = true)
  /\ (stop s = StopWaiting \/ (exists r, stop s = StopReturned r) ->
      CallSubscribe ∈ schedule
      /\ cancel (fetcher s) = Some tt /\ doneCh (fetcher s) = Some tt).
Proof.
  intros s. pose proof (sys_inv_reachable client schedule) as Hinv.
  fold s in Hinv. destruct Hinv as [Hcl Hf Hst Hc] eqn:Hinv'.
  clear Hinv'. unfold stop_ok, fields_ok, crash_ok in *.
  split.
  - intros Hno.
    assert (Hfetch : fetcher s = NewBlockFetcher client)
      by (unfold s; by rewrite fetcher_run).
    rewrite Hfetch in *. simpl in *.
    assert (Hstop : stop s = StopIdle \/ stop s = StopPanicked).
    { destruct (stop s) as [| |[e|]|]; auto;
        destruct Hst as (_ & Hst); try destruct Hst as (Hst & _);
        discriminate. }
    destruct Hf as (_ & Hpc & _).
    split; [reflexivity|]. split; [reflexivity|].
    intros ctxErr. unfold step, Stop_cancel. rewrite Hfetch. simpl.
    destruct (crashed s) eqn:Hcr.
    + split; [|exact Hcr]. destruct Hc as [Hc|Hc]; [congruence|done].
    + destruct Hstop as [-> | ->]; done.
  - intros Hpast.
    assert (Hcan : cancel (fetcher s) = Some tt).
    { destruct Hpast as [Hw|[r Hr]].
      - rewrite Hw in Hst. tauto.
      - rewrite Hr in Hst. destruct r; tauto. }
    rewrite Hcan in Hf. repeat split; try done.
    apply (subscribed_run client). fold s. intros Heq.
    rewrite Heq in Hcan. discriminate.
Qed.

End Subscription.

Lemma stoppedRun_state :
  loop (run (init growingChain) stoppedRun) = Exited
  /\ stop (run (init growingChain) stoppedRun) = StopReturned None
  /\ length (delivered (run (init growingChain) stoppedRun)) = 1%nat
  /\ trace (run (init growingChain) stoppedRun)
     = [CallSubscribeNewHeights; CallBlockByHeight 101; CallBlockByHeight 102].
Proof. vm_compute. repeat split. Qed.

Lemma receiveLoop_exit_closes_once_witness :
  (outClosed (run (init growingChain) stoppedAtOnce),
   doneClosed (run (init growingChain) stoppedAtOnce)) = (1%nat, 1%nat).
Proof.
  exact (proj1 (receiveLoop_exit_closes_once growingChain stoppedAtOnce)).
Defined.

Lemma Stop_cancels_then_waits_witness :
  ctxDone (run (init growingChain) stoppedAtOnce) = true
  /\ doneClosed (run (init growingChain) stoppedAtOnce) = 1%nat.
Proof.
  pose proof (Stop_cancels_then_waits growingChain stoppedAtOnce) as H.
  cbv zeta in H. destruct H as [H _].
  vm_compute in H. vm_compute. exact H.
Defined.

(** [Stop] on a fetcher fresh from [NewBlockFetcher]. *)
Lemma Stop_needs_subscription_witness :
  stop (step (init growingChain) (CallStop None)) = StopPanicked
  /\ crashed (step (init growingChain) (CallStop None)) = true.
Proof.
  refine (proj2 (proj2 (proj1 (Stop_needs_subscription growingChain []) _))
            None).
  apply not_elem_of_nil.
Defined.

(** * Further properties *)

(** ** Requests and results of the queries *)

Section Queries.
Context {tm : Tendermint}.

Lemma resolveHeight_nil (f : BlockFetcher) (tr : Trace) :
  resolveHeight f None tr
  = (Returns
       match client_Status (client f) tr with
       | inl err => (0, Some (Foreign err))
       | inr status => (coregrpc.LatestBlockHeight status, None)
       end,
     tr ++ [CallStatus]).
Proof.
  unfold resolveHeight. unfold_M.
  by destruct (client_Status (client f) tr).
Qed.

Lemma GetBlockByHash_opened (f : BlockFetcher) (hash : bytes) (tr : Trace)
    (stream : Stream coregrpc.BlockByHashResponse) :
  client_BlockByHash (client f) tr hash = inr stream ->
  GetBlockByHash f (Some hash) tr
  = (match receiveBlockByHash stream with
     | Panics => Panics
     | Returns (_, Some err) => Returns (None, Some err)
     | Returns (block, None) => Returns (block, None)
     end,
     tr ++ [CallBlockByHash hash]).
Proof.
  intros Hopen. unfold GetBlockByHash. unfold_M. rewrite Hopen.
  by destruct (receiveBlockByHash stream) as [[block [e|]]|].
Qed.

Lemma resolveHeight_cases (f : BlockFetcher) (height : option int64ptr)
    (tr : Trace) :
  (exists h, resolveHeight f height tr
             = (Returns (h, None), tr ++ match height with
                                         | Some _ => []
                                         | None => [CallStatus]
                                         end))
  \/ (exists err, height = None
                  /\ client_Status (client f) tr = inl err
                  /\ resolveHeight f height tr
                     = (Returns (0, Some (Foreign err)), tr ++ [CallStatus])).
Proof.
  destruct height as [p|].
  - left. exists (ptr_val p). by rewrite resolveHeight_Some, app_nil_r.
  - rewrite resolveHeight_nil.
    destruct (client_Status (client f) tr) as [err|status].
    + right. by exists err.
    + left. by eexists.
Qed.

Lemma Commit_unresolved (f : BlockFetcher) (height : option int64ptr)
    (tr tr1 : Trace) (h : Z) (err : error) :
  resolveHeight f height tr = (Returns (h, Some err), tr1) ->
  Commit f height tr = (Returns (None, Some err), tr1).
Proof. intros H. unfold Commit. unfold_M. by rewrite H. Qed.

Lemma ValidatorSet_resolved (f : BlockFetcher) (height : option int64ptr)
    (tr tr1 : Trace) (h : Z) :
  resolveHeight f height tr = (Returns (h, None), tr1) ->
  ValidatorSet f height tr =
  (match client_ValidatorSet (client f) tr1 h with
   | inl err => Returns (None, Some (Foreign err))
   | inr None => Panics
   | inr (Some res) =>
       match coregrpc.ValidatorSetResponse_ValidatorSet res with
       | None => Returns (None, Some (ErrValidatorSetNotFound (fmt_d height)))
       | Some v =>
           match ValidatorSetFromProto (Some v) with
           | inl err => Returns (None, Some (Foreign err))
           | inr validatorSet => Returns (Some validatorSet, None)
           end
       end
   end,
   tr1 ++ [CallValidatorSet h]).
Proof.
  intros Hres. unfold ValidatorSet. unfold_M. rewrite Hres.
  destruct (client_ValidatorSet (client f) tr1 h) as [e|[[[v|]]|]];
    simpl; try reflexivity.
  destruct (ValidatorSetFromProto (Some v)); reflexivity.
Qed.

Lemma ValidatorSet_unresolved (f : BlockFetcher) (height : option int64ptr)
    (tr tr1 : Trace) (h : Z) (err : error) :
  resolveHeight f height tr = (Returns (h, Some err), tr1) ->
  ValidatorSet f height tr = (Returns (None, Some err), tr1).
Proof. intros H. unfold ValidatorSet. unfold_M. by rewrite H. Qed.

(** X1. Every method that takes a height resolves it once: it sends the
    status request only for a [nil] height, then exactly one request of its
    own at the height resolved, and nothing more when the status request
    fails.  [IsSyncing] sends the one status request. *)
Theorem requests_of_queries (f : BlockFetcher) (height : option int64ptr)
    (tr : Trace) :
  snd (Commit f height tr) = tr ++ resolved_requests f height tr CallCommit
  /\ snd (ValidatorSet f height tr)
     = tr ++ resolved_requests f height tr CallValidatorSet
  /\ snd (GetBlock f height tr)
     = tr ++ resolved_requests f height tr CallBlockByHeight
  /\ snd (GetSignedBlock f height tr)
     = tr ++ resolved_requests f height tr CallBlockByHeight
  /\ snd (IsSyncing f tr) = tr ++ [CallStatus].
Proof.
  unfold Commit, ValidatorSet, GetBlock, GetSignedBlock, IsSyncing,
    resolved_requests.
  unfold_M. destruct height as [p|];
    [rewrite resolveHeight_Some|rewrite resolveHeight_nil]; simpl.
  - repeat split.
    + by destruct (client_Commit _ _ _) as [e|[[[c|]]|]]; simpl;
        try destruct (CommitFromProto _).
    + by destruct (client_ValidatorSet _ _ _) as [e|[[[c|]]|]]; simpl;
        try destruct (ValidatorSetFromProto _).
    + destruct (client_BlockByHeight _ _ _) as [e|stream]; simpl; [done|].
      by destruct (receiveBlockByHeight stream)
        as [[[[[b m] c] v] [e|]]|].
    + destruct (client_BlockByHeight _ _ _) as [e|stream]; simpl; [done|].
      by destruct (receiveBlockByHeight stream)
        as [[[[[[b|] m] [c|]] [v|]] [e|]]|].
    + by destruct (client_Status _ _).
  - destruct (client_Status (client f) tr) as [err|status]; simpl.
    + repeat split; by rewrite <- ?app_assoc.
    + repeat split; rewrite <- ?app_assoc; simpl.
      * by destruct (client_Commit _ _ _) as [e|[[[c|]]|]]; simpl;
          try destruct (CommitFromProto _).
      * by destruct (client_ValidatorSet _ _ _) as [e|[[[c|]]|]]; simpl;
          try destruct (ValidatorSetFromProto _).
      * destruct (client_BlockByHeight _ _ _) as [e|stream]; simpl; [done|].
        by destruct (receiveBlockByHeight stream)
          as [[[[[b m] c] v] [e|]]|].
      * destruct (client_BlockByHeight _ _ _) as [e|stream]; simpl; [done|].
        by destruct (receiveBlockByHeight stream)
          as [[[[[[b|] m] [c|]] [v|]] [e|]]|].
Qed.

(** X2. [Commit] returns its "not found" error exactly when the height was
    resolved and the client answered, without error, with a response that
    carries no commit; a transport error, a decoding error or a failed
    status request never gives it.  Likewise for [ValidatorSet]. *)
Theorem not_found_iff (f : BlockFetcher) (height : option int64ptr)
    (tr tr' : Trace) (d : Z) :
  (Commit f height tr = (Returns (None, Some (ErrCommitNotFound d)), tr') <->
   exists h tr1,
     resolveHeight f height tr = (Returns (h, None), tr1)
     /\ client_Commit (client f) tr1 h
        = inr (Some (coregrpc.mkCommitResponse None))
     /\ d = fmt_d height /\ tr' = tr1 ++ [CallCommit h])
  /\ (ValidatorSet f height tr
      = (Returns (None, Some (ErrValidatorSetNotFound d)), tr') <->
      exists h tr1,
        resolveHeight f height tr = (Returns (h, None), tr1)
        /\ client_ValidatorSet (client f) tr1 h
           = inr (Some (coregrpc.mkValidatorSetResponse None))
        /\ d = fmt_d height /\ tr' = tr1 ++ [CallValidatorSet h]).
Proof.
  split; split.
  - destruct (resolveHeight_cases f height tr)
      as [[h Hres]|(err & _ & _ & Hres)].
    + rewrite (Commit_resolved _ _ _ _ _ Hres).
      destruct (client_Commit _ _ h) as [e|[[[c|]]|]] eqn:Hc; simpl;
        try discriminate.
      * destruct (CommitFromProto (Some c)); discriminate.
      * intros [= <- <-]. by exists h, (tr ++ match height with
                                               | Some _ => []
                                               | None => [CallStatus]
                                               end).
    + by rewrite (Commit_unresolved _ _ _ _ _ _ Hres).
  - intros (h & tr1 & Hres & Hc & -> & ->).
    by rewrite (Commit_resolved _ _ _ _ _ Hres), Hc.
  - destruct (resolveHeight_cases f height tr)
      as [[h Hres]|(err & _ & _ & Hres)].
    + rewrite (ValidatorSet_resolved _ _ _ _ _ Hres).
      destruct (client_ValidatorSet _ _ h) as [e|[[[c|]]|]] eqn:Hc; simpl;
        try discriminate.
      * destruct (ValidatorSetFromProto (Some c)); discriminate.
      * intros [= <- <-]. by exists h, (tr ++ match height with
                                               | Some _ => []
                                               | None => [CallStatus]
                                               end).
    + by rewrite (ValidatorSet_unresolved _ _ _ _ _ _ Hres).
  - intros (h & tr1 & Hres & Hc & -> & ->).
    by rewrite (ValidatorSet_resolved _ _ _ _ _ Hres), Hc.
Qed.

(** X3. Called with a height, [Commit] and [ValidatorSet] panic in one
    case only: the client returns a [nil] response together with a [nil]
    error.  The test [res != nil] guards the "not found" branch, and
    [res.Commit] is read after it all the same.  Called with a [nil]
    height they panic on such an answer as well, once the status request
    has given the height. *)
Theorem panics_iff_nil_response (f : BlockFetcher) (p : int64ptr)
    (tr : Trace) :
  (fst (Commit f (Some p) tr) = Panics <->
   client_Commit (client f) tr (ptr_val p) = inr None)
  /\ (fst (ValidatorSet f (Some p) tr) = Panics <->
      client_ValidatorSet (client f) tr (ptr_val p) = inr None)
  /\ (forall (height : option int64ptr) (h : Z) (tr1 : Trace),
        resolveHeight f height tr = (Returns (h, None), tr1) ->
        (client_Commit (client f) tr1 h = inr None ->
         fst (Commit f height tr) = Panics)
        /\ (client_ValidatorSet (client f) tr1 h = inr None ->
            fst (ValidatorSet f height tr) = Panics)).
Proof.
  split; [|split].
  - rewrite (Commit_resolved _ _ _ _ _ (resolveHeight_Some f p tr)). simpl.
    destruct (client_Commit _ _ _) as [e|[[[c|]]|]]; simpl;
      try (split; discriminate); [|done].
    destruct (CommitFromProto (Some c)); split; discriminate.
  - rewrite (ValidatorSet_resolved _ _ _ _ _ (resolveHeight_Some f p tr)).
    simpl.
    destruct (client_ValidatorSet _ _ _) as [e|[[[v|]]|]]; simpl;
      try (split; discriminate); [|done].
    destruct (ValidatorSetFromProto (Some v)); split; discriminate.
  - intros height h tr1 Hres. split; intros Hnil.
    + by rewrite (Commit_resolved _ _ _ _ _ Hres), Hnil.
    + by rewrite (ValidatorSet_resolved _ _ _ _ _ Hres), Hnil.
Qed.

(** What [Commit] can return: a commit and no error, or an error and no
    commit. *)
Lemma Commit_result (f : BlockFetcher) (height : option int64ptr)
    (tr : Trace) :
  fst (Commit f height tr) = Panics
  \/ (exists commit, fst (Commit f height tr) = Returns (Some commit, None))
  \/ (exists err, fst (Commit f height tr) = Returns (None, Some err)).
Proof.
  destruct (resolveHeight_cases f height tr)
    as [[h Hres]|(err & _ & _ & Hres)].
  - rewrite (Commit_resolved _ _ _ _ _ Hres). simpl.
    destruct (client_Commit _ _ h) as [e|[[[c|]]|]]; simpl; eauto.
    destruct (CommitFromProto (Some c)); eauto.
  - rewrite (Commit_unresolved _ _ _ _ _ _ Hres). eauto.
Qed.

(** X4. [GetBlockInfo] gives all or nothing: a commit together with a
    validator set and no error, or an error and neither of the two.  When
    the commit query fails, its error comes back wrapped and no validator
    set is asked for. *)
Theorem GetBlockInfo_all_or_nothing (f : BlockFetcher)
    (height : option int64ptr) (tr : Trace) :
  (fst (GetBlockInfo f height tr) = Panics
   \/ (exists commit valSet,
         fst (GetBlockInfo f height tr)
         = Returns (Some commit, Some valSet, None))
   \/ (exists err,
         fst (GetBlockInfo f height tr) = Returns (None, None, Some err)))
  /\ (forall err tr1,
        Commit f height tr = (Returns (None, Some err), tr1) ->
        GetBlockInfo f height tr
        = (Returns (None, None, Some (ErrGettingCommit (fmt_d height) err)),
           tr1)).
Proof.
  split.
  - unfold GetBlockInfo. unfold_M.
    destruct (Commit_result f height tr) as [H|[[commit H]|[err H]]];
      destruct (Commit f height tr) as [o tr1]; simpl in H; subst o;
      simpl; eauto.
    rewrite ValidatorSet_at. simpl.
    destruct (client_ValidatorSet _ _ _) as [e|[[[v|]]|]]; simpl; eauto.
    destruct (ValidatorSetFromProto (Some v)); simpl; eauto.
  - intros err tr1 H. unfold GetBlockInfo. unfold_M. by rewrite H.
Qed.

(** X5. On the same trace [GetBlock] and [GetSignedBlock] send the same
    requests and agree: a block on one side is a signed block with the
    header and the data of that block on the other, an error is the same
    error, and when [GetBlock] returns neither block nor error
    [GetSignedBlock] panics on the [nil] block. *)
Theorem GetSignedBlock_follows_GetBlock (f : BlockFetcher)
    (height : option int64ptr) (tr : Trace) :
  snd (GetSignedBlock f height tr) = snd (GetBlock f height tr)
  /\ signed_of (fst (GetBlock f height tr)) (fst (GetSignedBlock f height tr)).
Proof.
  unfold GetBlock, GetSignedBlock. unfold_M.
  destruct (resolveHeight f height tr) as [[[h [e|]]|] tr1]; simpl;
    [done| |done].
  destruct (client_BlockByHeight _ _ _) as [e|stream]; simpl; [done|].
  unfold receiveBlockByHeight, failByHeight.
  destruct (Recv stream) as [[e|resp] stream']; simpl; [done|].
  destruct (BlockMetaFromProto _); simpl; [done|].
  destruct (CommitFromProto _); simpl; [done|].
  destruct (ValidatorSetFromProto _); simpl; [done|].
  destruct (receiveRestByHeight _ _ _ _); simpl; [done|].
  by destruct (partsToBlock _) as [[[b|] [e|]]|].
Qed.

End Queries.

(** [silentNode] makes both queries panic, for a height given and for the
    latest one. *)
Lemma panics_iff_nil_response_witness :
  fst (Commit (NewBlockFetcher silentNode) (Some (mkPtr 824633720832 7)) [])
  = Panics
  /\ fst (ValidatorSet (NewBlockFetcher silentNode) None []) = Panics.
Proof.
  pose proof (panics_iff_nil_response (NewBlockFetcher silentNode)
                (mkPtr 824633720832 7) []) as (Hc & _ & Hnil).
  split.
  - apply Hc. reflexivity.
  - apply (Hnil None 100 [CallStatus] eq_refl). reflexivity.
Defined.

(** ** Streams of parts *)

Section Streams.
Context {tm : Tendermint}.

Lemma receiveRestByHeight_cut (msgs extra : list coregrpc.BlockByHeightResponse)
    (closing closing' : string) (parts : list (option tmproto.Part))
    (isLast : bool) :
  isLast = true \/ Exists (fun m => coregrpc.IsLast m = true) msgs ->
  receiveRestByHeight (msgs ++ extra) closing parts isLast
  = receiveRestByHeight msgs closing' parts isLast.
Proof.
  revert parts isLast.
  induction msgs as [|m msgs IH]; intros parts isLast H; simpl.
  - destruct H as [->|H]; [|by inversion H]. by destruct extra.
  - destruct isLast; [done|]. apply IH.
    destruct H as [?|H]; [done|].
    destruct (coregrpc.IsLast m) eqn:Hm; [by left|].
    right. inversion H; subst; [congruence|done].
Qed.

Lemma receiveRestByHash_cut (msgs extra : list coregrpc.BlockByHashResponse)
    (closing closing' : string) (parts : list (option tmproto.Part))
    (isLast : bool) :
  isLast = true \/ Exists (fun m => coregrpc.ByHash_IsLast m = true) msgs ->
  receiveRestByHash (msgs ++ extra) closing parts isLast
  = receiveRestByHash msgs closing' parts isLast.
Proof.
  revert parts isLast.
  induction msgs as [|m msgs IH]; intros parts isLast H; simpl.
  - destruct H as [->|H]; [|by inversion H]. by destruct extra.
  - destruct isLast; [done|]. apply IH.
    destruct H as [?|H]; [done|].
    destruct (coregrpc.ByHash_IsLast m) eqn:Hm; [by left|].
    right. inversion H; subst; [congruence|done].
Qed.

(** X6. Once a message flagged last is in the stream, nothing after it is
    read: neither further messages nor the way the stream ends changes what
    [receiveBlockByHeight] and [receiveBlockByHash] return. *)
Theorem nothing_read_after_last
    (msgs extra : list coregrpc.BlockByHeightResponse)
    (hmsgs hextra : list coregrpc.BlockByHashResponse)
    (closing closing' : string) :
  Exists (fun m => coregrpc.IsLast m = true) msgs ->
  Exists (fun m => coregrpc.ByHash_IsLast m = true) hmsgs ->
  receiveBlockByHeight (mkStream (msgs ++ extra) closing)
  = receiveBlockByHeight (mkStream msgs closing')
  /\ receiveBlockByHash (mkStream (hmsgs ++ hextra) closing)
     = receiveBlockByHash (mkStream hmsgs closing').
Proof.
  intros H Hh. split.
  - destruct msgs as [|m msgs]; [by inversion H|].
    unfold receiveBlockByHeight, Recv. simpl.
    destruct (BlockMetaFromProto _); [done|].
    destruct (CommitFromProto _); [done|].
    destruct (ValidatorSetFromProto _); [done|].
    rewrite (receiveRestByHeight_cut msgs extra closing closing'); [done|].
    destruct (coregrpc.IsLast m) eqn:Hm; [by left|].
    right. inversion H; subst; [congruence|done].
  - unfold receiveBlockByHash. simpl.
    by rewrite (receiveRestByHash_cut hmsgs hextra closing closing');
      [|right].
Qed.

Lemma receiveRestByHeight_partOnly
    (msgs : list coregrpc.BlockByHeightResponse) (closing : string)
    (parts : list (option tmproto.Part)) (isLast : bool) :
  receiveRestByHeight (partOnly <$> msgs) closing parts isLast
  = receiveRestByHeight msgs closing parts isLast.
Proof.
  revert parts isLast.
  induction msgs as [|m msgs IH]; intros parts isLast; [done|].
  rewrite fmap_cons. simpl. destruct isLast; [done|]. apply IH.
Qed.

(** X7. The block meta, the commit and the validator set are taken from
    the first message of the by-height stream and from no other: of every
    later message only the part and the flag are read. *)
Theorem later_messages_give_parts_only (first : coregrpc.BlockByHeightResponse)
    (rest : list coregrpc.BlockByHeightResponse) (closing : string) :
  receiveBlockByHeight (mkStream (first :: (partOnly <$> rest)) closing)
  = receiveBlockByHeight (mkStream (first :: rest) closing).
Proof.
  unfold receiveBlockByHeight, Recv. simpl.
  by rewrite receiveRestByHeight_partOnly.
Qed.

Lemma receiveRestByHash_broken (pending : list coregrpc.BlockByHashResponse)
    (closing : string) (parts : list (option tmproto.Part)) :
  Forall (fun resp => coregrpc.ByHash_IsLast resp = false) pending ->
  receiveRestByHash pending closing parts false = inl closing.
Proof.
  intros H. revert parts.
  induction H as [|resp pending Hlast _ IH]; intros parts; simpl.
  - reflexivity.
  - rewrite Hlast. apply IH.
Qed.

(** X8. When the by-hash stream ends before a part flagged last has come
    (at once, too), [GetBlockByHash] returns no block and the very error
    the stream ended with, after the one request that opened the stream. *)
Theorem GetBlockByHash_all_or_nothing (f : BlockFetcher) (hash : bytes)
    (tr : Trace) (stream : Stream coregrpc.BlockByHashResponse) :
  client_BlockByHash (client f) tr hash = inr stream ->
  Forall (fun resp => coregrpc.ByHash_IsLast resp = false) (pending stream) ->
  GetBlockByHash f (Some hash) tr
  = (Returns (None, Some (Foreign (closing stream))),
     tr ++ [CallBlockByHash hash]).
Proof.
  intros Hopen Hbroken. rewrite (GetBlockByHash_opened _ _ _ _ Hopen).
  unfold receiveBlockByHash. by rewrite receiveRestByHash_broken.
Qed.

End Streams.

(** The by-hash stream of [emptyNode] breaks after its first part. *)
Lemma GetBlockByHash_all_or_nothing_witness :
  GetBlockByHash (NewBlockFetcher emptyNode) (Some [x01]) []
  = (Returns (None, Some (Foreign "transport is closing")),
     [CallBlockByHash [x01]]).
Proof.
  apply (GetBlockByHash_all_or_nothing (NewBlockFetcher emptyNode) [x01] []
           _ eq_refl).
  repeat constructor.
Defined.

(** The streams of [growingChain], with a message and another ending
    added. *)
Lemma nothing_read_after_last_witness :
  receiveBlockByHash (tm := plainTendermint)
    (mkStream
       ([coregrpc.mkBlockByHashResponse (Some partX) false;
         coregrpc.mkBlockByHashResponse (Some partY) true]
        ++ [coregrpc.mkBlockByHashResponse (Some partX) false])
       "transport is closing")
  = receiveBlockByHash (tm := plainTendermint)
      (mkStream
         [coregrpc.mkBlockByHashResponse (Some partX) false;
          coregrpc.mkBlockByHashResponse (Some partY) true]
         EOF).
Proof.
  apply (proj2 (nothing_read_after_last (tm := plainTendermint)
           [coregrpc.mkBlockByHeightResponse (Some partX) None None None true]
           []
           [coregrpc.mkBlockByHashResponse (Some partX) false;
            coregrpc.mkBlockByHashResponse (Some partY) true]
           [coregrpc.mkBlockByHashResponse (Some partX) false]
           "transport is closing" EOF
           ltac:(left; reflexivity) ltac:(right; left; reflexivity))).
Defined.

(** ** When reassembly succeeds *)

(** X9. With every part there, [partsToBlock] panics in one case only: no
    part at all.  The part set of total 0 is complete, and its reader opens
    the first slot of none.  With one part or more it returns, whatever the
    indices are: the part set is complete whenever its reader is asked
    for. *)
Theorem partsToBlock_panics_iff_no_parts {tm : Tendermint}
    (parts : list tmproto.Part) :
  partsToBlock (Some <$> parts) = Panics <-> parts = [].
Proof.
  unfold partsToBlock.
  destruct (partsToBytes_cases parts)
    as [[r Hr]|[[Hnil Hp]|(slots & Hne & _ & _ & _ & Hbz)]].
  - rewrite Hr. split; [discriminate|]. intros ->. discriminate Hr.
  - by rewrite Hp.
  - rewrite Hbz. split; [|done].
    destruct (Unmarshal _); [discriminate|].
    by destruct (BlockFromProto _).
Qed.

(** X10. Bytes are read from the part set exactly when the parts, all of
    them there and at least one, declare indices that are distinct and
    below the number of parts, which must itself fit in 32 bits: the order
    in which they come plays no part. *)
Theorem partsToBytes_succeeds_iff (parts : list tmproto.Part) :
  (exists bz, partsToBytes (Some <$> parts) = Returns (inr bz)) <->
  parts <> []
  /\ NoDup (tmproto.Index <$> parts)
  /\ Forall (fun p => (tmproto.Index p < N.of_nat (length parts))%N) parts
  /\ (N.of_nat (length parts) < 2 ^ 32)%N.
Proof.
  split.
  - intros [bz H].
    destruct (partsToBytes_cases parts)
      as [[r Hr]|[[_ Hp]|(slots & Hne & Hs & Hpos & Hlt & _)]];
      try congruence.
    destruct (positions_distinct slots Hpos) as [Hnd Hrange].
    assert (Hidx : tmproto.Index <$> parts ≡ₚ types.Index <$> slots).
    { rewrite Hs, <- list_fmap_compose. done. }
    assert (Hlen : length slots = length parts).
    { rewrite <- (length_fmap types.Index slots), <- Hidx.
      by rewrite length_fmap. }
    split; [done|]. split; [by rewrite Hidx|]. split; [|done].
    apply Forall_forall. intros p Hp.
    assert (Hin : tmproto.Index p ∈ types.Index <$> slots).
    { rewrite <- Hidx. by apply list_elem_of_fmap_2. }
    apply list_elem_of_fmap in Hin as (q & -> & Hq).
    rewrite Forall_forall in Hrange. rewrite <- Hlen. by apply Hrange.
  - intros (Hne & Hnd & Hlt & Hsmall). by apply partsToBytes_reads.
Qed.

(** One part panics no more than two; and no part at all does. *)
Lemma partsToBlock_panics_iff_no_parts_witness :
  partsToBlock (tm := plainTendermint) (Some <$> [partX]) <> Panics
  /\ partsToBlock (tm := plainTendermint) (Some <$> []) = Panics.
Proof.
  split.
  - intros H.
    pose proof (proj1 (partsToBlock_panics_iff_no_parts
                         (tm := plainTendermint) [partX]) H) as Hnil.
    discriminate Hnil.
  - apply (partsToBlock_panics_iff_no_parts (tm := plainTendermint) []).
    reflexivity.
Defined.

(** The parts "y" at 1 and "x" at 0, in this order, are read; no part is
    not read. *)
Lemma partsToBytes_succeeds_iff_witness :
  (exists bz, partsToBytes (Some <$> [partY; partX]) = Returns (inr bz))
  /\ ~ (exists bz, partsToBytes (Some <$> []) = Returns (inr bz)).
Proof.
  split.
  - apply (partsToBytes_succeeds_iff [partY; partX]).
    split; [discriminate|]. split; [|split].
    + apply (bool_decide_unpack _). reflexivity.
    + repeat constructor.
    + reflexivity.
  - intros H. apply (partsToBytes_succeeds_iff []) in H as [Hne _].
    by apply Hne.
Defined.

(** ** From a stream to a block *)

Section EndToEnd.
Context {tm : Tendermint}.

Lemma partsToBlock_decodeBlock (parts : list (option tmproto.Part))
    (bz : bytes) :
  partsToBytes parts = Returns (inr bz) -> partsToBlock parts = decodeBlock bz.
Proof. intros H. unfold partsToBlock, decodeBlock. by rewrite H. Qed.

Lemma receiveRestByHash_hashMessages (payloads : list bytes) (first : N)
    (extra : list coregrpc.BlockByHashResponse) (closing : string)
    (parts : list (option tmproto.Part)) :
  payloads <> [] ->
  receiveRestByHash (hashMessages first payloads ++ extra) closing parts false
  = inr (parts ++ (Some <$> inSequence first payloads)).
Proof.
  revert first parts.
  induction payloads as [|b payloads IH]; intros first parts Hne; [done|].
  destruct payloads as [|b' payloads].
  - simpl. by destruct extra.
  - change (hashMessages first (b :: b' :: payloads))
      with (coregrpc.mkBlockByHashResponse
              (Some (tmproto.mkPart first b)) false
            :: hashMessages (first + 1) (b' :: payloads)).
    rewrite <- app_comm_cons.
    change (receiveRestByHash
              ((coregrpc.mkBlockByHashResponse (Some (tmproto.mkPart first b))
                  false
                :: hashMessages (first + 1) (b' :: payloads) ++ extra))
              closing parts false)
      with (receiveRestByHash
              (hashMessages (first + 1) (b' :: payloads) ++ extra) closing
              (parts ++ [Some (tmproto.mkPart first b)]) false).
    rewrite IH by done. by rewrite <- app_assoc.
Qed.

(** X11. A block cut into any number of payloads and sent by hash as parts
    numbered in sequence, the last one flagged, comes back from
    [GetBlockByHash] as the decoding of the payloads put together again,
    after the one request that opens the stream. *)
Theorem GetBlockByHash_reassembles (f : BlockFetcher) (hash : bytes)
    (tr : Trace) (payloads : list bytes)
    (extra : list coregrpc.BlockByHashResponse) (closing : string) :
  payloads <> [] ->
  (N.of_nat (length payloads) < 2 ^ 32)%N ->
  client_BlockByHash (client f) tr hash
  = inr (mkStream (hashMessages 0 payloads ++ extra) closing) ->
  GetBlockByHash f (Some hash) tr
  = (decodeBlock (concat payloads), tr ++ [CallBlockByHash hash]).
Proof.
  intros Hne Hlt Hopen. rewrite (GetBlockByHash_opened _ _ _ _ Hopen).
  unfold receiveBlockByHash. simpl.
  rewrite receiveRestByHash_hashMessages by done. simpl.
  rewrite (partsToBlock_decodeBlock _ _
             (partsToBytes_inSequence payloads Hne Hlt)).
  unfold decodeBlock. destruct (Unmarshal _); [done|].
  by destruct (BlockFromProto _).
Qed.

Lemma receiveRestByHeight_of_hash (msgs : list coregrpc.BlockByHashResponse)
    (closing : string) (parts : list (option tmproto.Part)) (isLast : bool) :
  receiveRestByHeight
    ((fun m => coregrpc.mkBlockByHeightResponse (coregrpc.ByHash_BlockPart m)
                 None None None (coregrpc.ByHash_IsLast m)) <$> msgs)
    closing parts isLast
  = receiveRestByHash msgs closing parts isLast.
Proof.
  revert parts isLast.
  induction msgs as [|m msgs IH]; intros parts isLast; [done|].
  rewrite fmap_cons. simpl. destruct isLast; [done|]. apply IH.
Qed.

(** X12. The same block sent by height, its first message carrying block
    meta, commit and validator set that decode: [GetSignedBlock] returns
    the commit and the validator set of that first message with the header
    and the data of the block decoded from the payloads put together
    again. *)
Theorem GetSignedBlock_reassembles (f : BlockFetcher)
    (height : option int64ptr) (tr tr1 : Trace) (h : Z)
    (meta : option pbBlockMeta) (pbc : option pbCommit)
    (pbv : option pbValidatorSet) (payloads : list bytes) (closing : string)
    (blockMeta : tmBlockMeta) (commit : tmCommit)
    (validatorSet : tmValidatorSet) (block : tmBlock) :
  resolveHeight f height tr = (Returns (h, None), tr1) ->
  client_BlockByHeight (client f) tr1 h
  = inr (mkStream (heightMessages meta pbc pbv payloads) closing) ->
  payloads <> [] ->
  (N.of_nat (length payloads) < 2 ^ 32)%N ->
  BlockMetaFromProto meta = inr blockMeta ->
  CommitFromProto pbc = inr commit ->
  ValidatorSetFromProto pbv = inr validatorSet ->
  decodeBlock (concat payloads) = Returns (Some block, None) ->
  GetSignedBlock f height tr
  = (Returns (Some {| Header := Block_Header block; Commit_ := commit;
                      Data := Block_Data block;
                      ValidatorSet_ := validatorSet |}, None),
     tr1 ++ [CallBlockByHeight h])
  /\ GetBlock f height tr
     = (Returns (Some block, None), tr1 ++ [CallBlockByHeight h]).
Proof.
  intros Hres Hopen Hne Hlt Hm Hc Hv Hb.
  assert (Hrecv :
    receiveBlockByHeight (mkStream (heightMessages meta pbc pbv payloads)
                            closing)
    = Returns (Some block, Some blockMeta, Some commit, Some validatorSet,
               None)).
  { pose proof (receiveRestByHash_hashMessages payloads 0 [] closing [] Hne)
      as Hrest.
    rewrite app_nil_r in Hrest. simpl in Hrest.
    unfold heightMessages.
    destruct (hashMessages 0 payloads) as [|m msgs] eqn:Hmsgs.
    { by destruct payloads as [|b [|b' payloads]]. }
    unfold receiveBlockByHeight, Recv. simpl. rewrite Hm, Hc, Hv.
    rewrite receiveRestByHeight_of_hash. simpl in Hrest. rewrite Hrest.
    rewrite (partsToBlock_decodeBlock _ _
               (partsToBytes_inSequence payloads Hne Hlt)).
    by rewrite Hb. }
  unfold GetSignedBlock, GetBlock. unfold_M.
  by rewrite Hres, Hopen, Hrecv.
Qed.

End EndToEnd.

(** The streams of [growingChain] are those of a block cut in two. *)
Lemma GetBlockByHash_reassembles_witness :
  GetBlockByHash (NewBlockFetcher growingChain) (Some [x01]) []
  = (Returns (Some [x78; x79], None), [CallBlockByHash [x01]]).
Proof.
  exact (GetBlockByHash_reassembles (NewBlockFetcher growingChain) [x01] []
           [[x78]; [x79]] [] EOF ltac:(done) ltac:(done) eq_refl).
Defined.

Lemma GetSignedBlock_reassembles_witness :
  GetSignedBlock (NewBlockFetcher growingChain) None []
  = (Returns (Some (mkResultSignedBlock (tm := plainTendermint)
                      [x78] 100 [x79] 100), None),
     [CallStatus; CallBlockByHeight 100]).
Proof.
  exact (proj1 (GetSignedBlock_reassembles (NewBlockFetcher growingChain)
                  None [] [CallStatus] 100 (Some 100) (Some 100) (Some 100)
                  [[x78]; [x79]] EOF 100 100 100 [x78; x79]
                  eq_refl eq_refl ltac:(done) ltac:(done)
                  eq_refl eq_refl eq_refl eq_refl)).
Defined.

(** ** More on the life of a subscription *)

Section SubscriptionMore.
Context {tm : Tendermint}.









Lemma shutdown_step (s : Sys) (b : bool) (n : nat) :
  ctxDone s = true -> loop s <> NotStarted ->
  (crashed s = true -> loop s = Panicked) ->
  (steps_left (loop s) <= S n)%nat ->
  let s' := step s (LoopStep b) in
  ctxDone s' = true /\ loop s' <> NotStarted
  /\ (crashed s' = true -> loop s' = Panicked)
  /\ (steps_left (loop s') <= n)%nat
  /\ (length (delivered s') + may_deliver (loop s')
      <= length (delivered s) + may_deliver (loop s))%nat.
Proof.
  destruct s as [f cd oc dc dl sub pc st sctx tr cr]. simpl.
  intros -> Hpc Hcr Hn. unfold step. simpl.
  destruct cr.
  { rewrite (Hcr eq_refl) in *. simpl in *. repeat split; auto with lia. }
  unfold receiveLoop. simpl.
  destruct pc; simpl in *; try done; repeat split; auto with lia;
    try discriminate.
  all: try (unfold Recv; destruct (pending sub); simpl; auto with lia;
            discriminate).
  all: try (destruct (GetSignedBlock _ _ _) as [[[[sb|] [e|]]|] tr'];
            simpl; auto with lia; discriminate).
  all: destruct b; simpl; rewrite ?length_app; simpl; auto with lia;
    discriminate.
Qed.

(** X15. Once the context is done the goroutine is gone after six of its
    steps at most, whatever the consumer does: both channels are closed,
    so that [Stop] can return, and at most one more event has been
    delivered. *)
Theorem shutdown_is_bounded (cl : Client) (schedule : list Input)
    (b1 b2 b3 b4 b5 b6 : bool) :
  let s := run (init cl) schedule in
  ctxDone s = true -> loop s <> NotStarted ->
  let s' := run s (LoopStep <$> [b1; b2; b3; b4; b5; b6]) in
  (loop s' = Exited \/ loop s' = Panicked)
  /\ outClosed s' = 1%nat /\ doneClosed s' = 1%nat
  /\ (length (delivered s') <= S (length (delivered s)))%nat.
Proof.
  intros s Hd Hpc s'.
  pose proof (sys_inv_reachable cl schedule) as Hinv. fold s in Hinv.
  assert (Hinv' : sys_inv s') by (by apply sys_inv_run).
  assert (Hcr : crashed s = true -> loop s = Panicked).
  { intros H. destruct Hinv as [_ Hf Hst Hc].
    unfold crash_ok, fields_ok, stop_ok in *. rewrite H in Hc.
    destruct Hc as [?|Hc]; [done|]. rewrite Hc in Hst.
    destruct Hst as [_ Hst]. rewrite Hst in Hf.
    by destruct Hf as (_ & ? & _). }
  assert (H6 : (steps_left (loop s) <= 6)%nat)
    by (destruct (loop s); simpl; lia).
  assert (Hm : (may_deliver (loop s) <= 1)%nat)
    by (destruct (loop s); simpl; lia).
  subst s'.
  change (LoopStep <$> [b1; b2; b3; b4; b5; b6])
    with ([LoopStep b1; LoopStep b2; LoopStep b3]
          ++ [LoopStep b4; LoopStep b5; LoopStep b6]) in *.
  clearbody s.
  destruct (shutdown_step s b1 5 Hd Hpc Hcr H6) as (Hd1 & Hp1 & Hc1 & H5 & D1).
  destruct (shutdown_step _ b2 4 Hd1 Hp1 Hc1 H5) as (Hd2 & Hp2 & Hc2 & H4 & D2).
  destruct (shutdown_step _ b3 3 Hd2 Hp2 Hc2 H4) as (Hd3 & Hp3 & Hc3 & H3 & D3).
  destruct (shutdown_step _ b4 2 Hd3 Hp3 Hc3 H3) as (Hd4 & Hp4 & Hc4 & H2 & D4).
  destruct (shutdown_step _ b5 1 Hd4 Hp4 Hc4 H2) as (Hd5 & Hp5 & Hc5 & H1 & D5).
  destruct (shutdown_step _ b6 0 Hd5 Hp5 Hc5 H1) as (Hd6 & Hp6 & Hc6 & H0 & D6).
  rewrite run_app in *.
  change (run (run s [LoopStep b1; LoopStep b2; LoopStep b3])
            [LoopStep b4; LoopStep b5; LoopStep b6])
    with (step (step (step (step (step (step s (LoopStep b1)) (LoopStep b2))
                              (LoopStep b3)) (LoopStep b4)) (LoopStep b5))
            (LoopStep b6)) in *.
  set (s6 := step _ (LoopStep b6)) in *.
  pose proof (inv_closes _ Hinv') as Hcl.
  assert (Hend : loop s6 = Exited \/ loop s6 = Panicked).
  { destruct (loop s6); simpl in H0; try lia; auto. }
  split; [done|].
  destruct Hend as [Hend|Hend]; rewrite Hend in Hcl; simpl in Hcl;
    injection Hcl as -> ->; repeat split; lia.
Qed.

End SubscriptionMore.


(** [growingChain], stopped with a height read and nothing delivered. *)
Lemma shutdown_is_bounded_witness :
  outClosed (run (run (init growingChain)
                    [CallSubscribe; LoopStep true; LoopStep true;
                     CallStop None])
               (LoopStep <$> [true; true; true; true; true; true]))
  = 1%nat.
Proof.
  pose proof (shutdown_is_bounded growingChain
                [CallSubscribe; LoopStep true; LoopStep true; CallStop None]
                true true true true true true) as H.
  cbv zeta in H.
  exact (proj1 (proj2 (H ltac:(vm_compute; reflexivity)
                         ltac:(vm_compute; discriminate)))).
Defined.

(** ** The sampling worker *)

Section WorkerFacts.
Variable Header : Type.
Variable getter : N -> das.error + Header.
Variable sample : Header -> option das.error.

#[local] Abbreviation w_loop := (das.loop Header getter sample).
#[local] Abbreviation w_errAt := (das.errAt Header getter sample).
#[local] Abbreviation w_callsAt := (das.callsAt Header getter sample).
#[local] Abbreviation w_canceledAt := (das.canceledAt Header getter sample).
#[local] Abbreviation w_failedIn := (das.failedIn Header getter sample).
#[local] Abbreviation w_errorsIn := (das.errorsIn Header getter sample).

Lemma loop_next (fuel : nat) (curr : N) (w : das.workerState)
    (log : list das.Call) :
  (curr <= das.To (das.state_job w))%N ->
  (das.To (das.state_job w) < 2 ^ 64 - 1)%N ->
  w_canceledAt curr = false ->
  w_loop (S fuel) curr w log
  = w_loop fuel (curr + 1) (das.setResult w curr (w_errAt curr))
      (log ++ w_callsAt curr).
Proof.
  intros Hle Hmax Hc. simpl.
  destruct (N.leb_spec curr (das.To (das.state_job w))); [|lia].
  unfold das.canceledAt, das.errAt, das.callsAt in *.
  destruct (das.sampleAt Header getter sample curr) as [err calls].
  simpl in *. rewrite Hc. unfold das.uint64.
  by rewrite N.mod_small by lia.
Qed.

Lemma loop_canceled (fuel : nat) (curr : N) (w : das.workerState)
    (log : list das.Call) :
  (curr <= das.To (das.state_job w))%N ->
  w_canceledAt curr = true ->
  w_loop (S fuel) curr w log = Some (w, log ++ w_callsAt curr).
Proof.
  intros Hle Hc. simpl.
  destruct (N.leb_spec curr (das.To (das.state_job w))); [|lia].
  unfold das.canceledAt, das.errAt, das.callsAt in *.
  destruct (das.sampleAt Header getter sample curr) as [err calls].
  simpl in *. by rewrite Hc.
Qed.

Lemma loop_over (fuel : nat) (curr : N) (w : das.workerState)
    (log : list das.Call) :
  (das.To (das.state_job w) < curr)%N -> w_loop fuel curr w log = Some (w, log).
Proof.
  intros Hlt. destruct fuel; simpl;
    by destruct (N.leb_spec curr (das.To (das.state_job w))); [lia|].
Qed.

Lemma loop_range (n fuel : nat) (curr : N) (w : das.workerState)
    (log : list das.Call) :
  (das.To (das.state_job w) < 2 ^ 64 - 1)%N ->
  (curr + N.of_nat n <= das.To (das.state_job w) + 1)%N ->
  (forall h, h ∈ das.range curr n -> w_canceledAt h = false) ->
  w_loop (n + fuel) curr w log
  = w_loop fuel (curr + N.of_nat n)
      {| das.state_job := das.state_job w;
         das.Curr := match n with
                     | O => das.Curr w
                     | S _ => curr + N.of_nat n - 1
                     end;
         das.Err := das.Err w ++ w_errorsIn (das.range curr n);
         das.failed := das.failed w ++ w_failedIn (das.range curr n) |}
      (log ++ concat (w_callsAt <$> das.range curr n)).
Proof.
  revert curr w log.
  induction n as [|n IH]; intros curr w log Hmax Hle Hc.
  - simpl. rewrite N.add_0_r, !app_nil_r. by destruct w.
  - change (S n + fuel)%nat with (S (n + fuel)).
    rewrite loop_next; [|lia|done|apply Hc; by left].
    rewrite IH.
    + f_equal.
      * lia.
      * unfold das.errorsIn, das.failedIn. simpl.
        destruct (w_errAt curr) as [e|] eqn:He; simpl;
          rewrite <- ?app_assoc; simpl; f_equal;
          destruct n; simpl; lia.
      * simpl. by rewrite <- app_assoc.
    + by destruct (w_errAt curr).
    + destruct (w_errAt curr); simpl; lia.
    + intros h Hh. apply Hc. by right.
Qed.

(** X16. A job whose upper end is not the largest [uint64] is worked off
    height by height, in ascending order, up to the first height at which
    the context is found cancelled, or to its end: each of these heights
    is fetched once, and sampled once when its header came; the heights
    recorded as failed are those among them at which fetching or sampling
    failed, with one error each; [Curr] is the last height worked off; and
    the height that met the cancellation is neither recorded nor counted,
    so that it is sampled again after a restart. *)
Theorem worker_loop_spec (j : das.job) (n fuel : nat) :
  (das.To j < 2 ^ 64 - 1)%N ->
  (das.From j + N.of_nat n <= das.To j + 1)%N ->
  (forall h, h ∈ das.range (das.From j) n -> w_canceledAt h = false) ->
  ((das.From j + N.of_nat n <= das.To j)%N ->
   w_canceledAt (das.From j + N.of_nat n) = true) ->
  w_loop (S n + fuel) (das.From j) (das.newWorker j) []
  = Some ({| das.state_job := j;
             das.Curr := match n with
                         | O => das.From j
                         | S _ => das.From j + N.of_nat n - 1
                         end;
             das.Err := w_errorsIn (das.range (das.From j) n);
             das.failed := w_failedIn (das.range (das.From j) n) |},
          concat (w_callsAt <$> das.range (das.From j) n)
          ++ (if (das.From j + N.of_nat n <=? das.To j)%N
              then w_callsAt (das.From j + N.of_nat n) else [])).
Proof.
  intros Hmax Hle Hc Hstop.
  replace (S n + fuel)%nat with (n + S fuel)%nat by lia.
  rewrite loop_range by done.
  destruct (N.leb_spec (das.From j + N.of_nat n) (das.To j)) as [Hin|Hout].
  - by rewrite loop_canceled; [| |apply Hstop].
  - rewrite loop_over by done. by rewrite app_nil_r.
Qed.

(** X17. A job that runs up to the largest [uint64] does not end by
    itself: [curr++] wraps around to 0 and [curr <= To] holds on; only a
    cancelled context ends it. *)
Theorem worker_loop_never_ends (fuel : nat) (curr : N) (w : das.workerState)
    (log : list das.Call) :
  das.To (das.state_job w) = (2 ^ 64 - 1)%N ->
  (curr < 2 ^ 64)%N ->
  (forall h, w_canceledAt h = false) ->
  w_loop fuel curr w log = None.
Proof.
  intros Hmax Hcurr Hc. revert curr w log Hmax Hcurr.
  induction fuel as [|fuel IH]; intros curr w log Hmax Hcurr; simpl.
  - by destruct (N.leb_spec curr (das.To (das.state_job w))); [|lia].
  - destruct (N.leb_spec curr (das.To (das.state_job w))); [|lia].
    pose proof (Hc curr) as Hcc.
    unfold das.canceledAt, das.errAt in Hcc.
    destruct (das.sampleAt Header getter sample curr) as [err calls].
    simpl in Hcc. rewrite Hcc. apply IH.
    + by destruct err.
    + unfold das.uint64. by apply N.mod_upper_bound.
Qed.

End WorkerFacts.

(** The job from 5 to 12 on the sample chain: the heights 5 to 8 are worked
    off, 6 and 7 fail, and the cancellation at 9 ends the job. *)
Lemma worker_loop_spec_witness :
  das.loop N sampleGetter sampleSample 5 5
    (das.newWorker (das.mkJob 1 5 12)) []
  = Some (das.mkState (das.mkJob 1 5 12) 8
            [das.AtHeight 6 (das.Foreign "share unavailable" false);
             das.AtHeight 7 (das.Foreign "header not found" false)]
            [6%N; 7%N],
          [das.CallGetByHeight 5; das.CallSample 5;
           das.CallGetByHeight 6; das.CallSample 6;
           das.CallGetByHeight 7;
           das.CallGetByHeight 8; das.CallSample 8;
           das.CallGetByHeight 9]).
Proof.
  apply (worker_loop_spec N sampleGetter sampleSample (das.mkJob 1 5 12) 4 0).
  - reflexivity.
  - simpl. lia.
  - intros h Hh. simpl in Hh.
    repeat (apply elem_of_cons in Hh as [->|Hh]; [reflexivity|]).
    by apply elem_of_nil in Hh.
  - reflexivity.
Defined.

(** The job from 0 to the largest [uint64] on a chain that never fails. *)
Lemma worker_loop_never_ends_witness :
  das.loop N (fun h => inr h) (fun _ => None) 3 0
    (das.newWorker (das.mkJob 1 0 (2 ^ 64 - 1))) []
  = None.
Proof.
  apply worker_loop_never_ends; [reflexivity|reflexivity|].
  intros h. reflexivity.
Defined.

